(** * Eddy / chlorophyll analysis pipeline (src/analysis.py)

    A shallow embedding of the three entry points of [analysis.py]:
    [detect_eddies], [calculate_chlorophyll_anomaly] and
    [correlate_eddies_chlorophyll], with the array primitives they call
    (elementwise comparison and subtraction, [ndimage.label],
    [ndimage.sum], [np.isin], [np.argwhere], NaN-skipping means).

    Conventions of the model:
    - a cell value is either missing ([NaN]) or an exact rational
      ([Num q]); the rounding of IEEE arithmetic is not modelled;
    - an array is a list of named dimensions with their sizes and the
      cell values in row-major (C) order, as numpy stores them;
    - coordinate labels are not modelled: two arrays meet positionally
      along a dimension they share by name;
    - exceptions are values of type [exn] carried by [result]. *)

From Stdlib Require Import QArith Qcanon.
From stdpp Require Import gmap strings list fin_maps numbers.

Open Scope string_scope.
Open Scope list_scope.
Open Scope nat_scope.

(** ** Values *)

Inductive value : Type :=
| NaN
| Num (q : Qc).

#[global] Instance value_eq_dec : EqDecision value.
Proof. solve_decision. Defined.

(** [a > b] on floats: false as soon as one side is NaN. *)
Definition gt (a b : value) : bool :=
  match a, b with
  | Num x, Num y => bool_decide (y < x)%Qc
  | _, _ => false
  end.

(** [a - b] on floats: NaN as soon as one side is NaN. *)
Definition vsub (a b : value) : value :=
  match a, b with
  | Num x, Num y => Num (x - y)
  | _, _ => NaN
  end.

Definition Qc_of_nat (n : nat) : Qc := Qc_of_Z (Z.of_nat n).

Definition vals (vs : list value) : list Qc :=
  omap (fun v => match v with Num q => Some q | NaN => None end) vs.

Definition Qc_sum (qs : list Qc) : Qc := foldr Qcplus 0%Qc qs.

(** Mean that skips missing values ([skipna=True], [np.nanmean]): the
    sum of the defined values over their count, NaN when there is none. *)
Definition nanmean (vs : list value) : value :=
  match vals vs with
  | [] => NaN
  | qs => Num (Qc_sum qs / Qc_of_nat (length qs))
  end.

(** Plain mean of integer coordinates ([positions.mean(axis=0)] on one
    column): NaN (0/0) on an empty column. *)
Definition mean_nat (ns : list nat) : value :=
  match ns with
  | [] => NaN
  | _ => Num (Qc_of_nat (foldr plus 0 ns) / Qc_of_nat (length ns))
  end.

(** ** Exceptions *)

Inductive exn : Type :=
| FileNotFoundError (path : string)  (* raised by [xr.open_dataset] *)
| KeyError (key : string)            (* raised by [Dataset.__getitem__] *)
| ValueError (msg : string).         (* raised by reductions and broadcasting *)

Inductive result (A : Type) : Type :=
| Ok (a : A)
| Raise (e : exn).
Arguments Ok {A} a.
Arguments Raise {A} e.

#[global] Instance exn_eq_dec : EqDecision exn.
Proof. solve_decision. Defined.

#[global] Instance result_eq_dec {A} `{EqDecision A} : EqDecision (result A).
Proof. solve_decision. Defined.

Definition bind {A B : Type} (r : result A) (k : A -> result B) : result B :=
  match r with
  | Ok a => k a
  | Raise e => Raise e
  end.

Notation "'let*' x ':=' r 'in' k" := (bind r (fun x => k))
  (at level 10, x name, r at level 100, k at level 200).

(** The errors the dataset abstraction raises by itself when a variable
    is looked up by name, as opposed to an error a caller would raise
    after its own check. *)
Definition is_lookup_error (e : exn) : bool :=
  match e with
  | KeyError _ => true
  | _ => false
  end.

(** ** Arrays and datasets *)

(** A numpy array: shape and cells in row-major order. *)
Record ndarray (A : Type) : Type := mk_ndarray {
  nd_shape : list nat;
  nd_data : list A
}.
Arguments mk_ndarray {A} nd_shape nd_data.
Arguments nd_shape {A} _.
Arguments nd_data {A} _.

(** An [xarray.DataArray]: named dimensions with sizes, and the cells. *)
Record DataArray : Type := mk_DataArray {
  da_dims : list (string * nat);
  da_data : list value
}.

#[global] Instance DataArray_eq_dec : EqDecision DataArray.
Proof. solve_decision. Defined.

Definition dim_names (dims : list (string * nat)) : list string := dims.*1.
Definition dim_sizes (dims : list (string * nat)) : list nat := dims.*2.
Definition da_shape (a : DataArray) : list nat := dim_sizes (da_dims a).

Definition size_of (shape : list nat) : nat := foldr Nat.mul 1 shape.

(** The class invariant of a [DataArray]: distinct dimension names and
    as many cells as the shape says. *)
Definition wf_DataArray (a : DataArray) : bool :=
  bool_decide (NoDup (dim_names (da_dims a)))
  && (length (da_data a) =? size_of (da_shape a)).

Abbreviation Dataset := (gmap string DataArray).
Abbreviation FileSystem := (gmap string (gmap string DataArray)).

Definition open_dataset (fs : FileSystem) (file_path : string) : result Dataset :=
  match fs !! file_path with
  | Some ds => Ok ds
  | None => Raise (FileNotFoundError file_path)
  end.

(** [ds[name]] *)
Definition getitem (ds : Dataset) (name : string) : result DataArray :=
  match ds !! name with
  | Some a => Ok a
  | None => Raise (KeyError name)
  end.

(** ** Index arithmetic *)

(** [np.unravel_index]: the coordinates of flat index [k]. *)
Fixpoint unravel_index (shape : list nat) (k : nat) : list nat :=
  match shape with
  | [] => []
  | _ :: rest => k / size_of rest :: unravel_index rest (k mod size_of rest)
  end.

(** Flat indices of the cells next to [k] along one axis (the default
    structuring element of [ndimage.label]: connectivity 1). *)
Fixpoint neighbours (shape : list nat) (k : nat) : list nat :=
  match shape with
  | [] => []
  | n :: rest =>
    let stride := size_of rest in
    let c := k / stride in
    (if 0 <? c then [k - stride] else [])
    ++ (if S c <? n then [k + stride] else [])
    ++ map (fun j => c * stride + j) (neighbours rest (k mod stride))
  end.

(** ** [scipy.ndimage] and numpy primitives *)

(** One region: starting from the cells of [work], give label [l] to
    every unlabelled cell of the mask reached through neighbours. *)
Fixpoint flood (fuel : nat) (shape : list nat) (mask : list bool) (l : nat)
    (work : list nat) (out : list nat) : list nat :=
  match fuel with
  | 0 => out
  | S fuel' =>
    match work with
    | [] => out
    | k :: work' =>
      match mask !! k, out !! k with
      | Some true, Some 0 =>
        flood fuel' shape mask l (neighbours shape k ++ work') (<[k := l]> out)
      | _, _ => flood fuel' shape mask l work' out
      end
    end
  end.

Definition flood_fuel (shape : list nat) (mask : list bool) : nat :=
  S ((2 * length shape + 1) * length mask).

(** Raster scan: every cell of the mask not yet labelled opens the next
    region. Returns the labels and the number of regions. *)
Fixpoint scan (shape : list nat) (mask : list bool) (cells : list nat)
    (n : nat) (out : list nat) : list nat * nat :=
  match cells with
  | [] => (out, n)
  | k :: cells' =>
    match mask !! k, out !! k with
    | Some true, Some 0 =>
      scan shape mask cells' (S n)
           (flood (flood_fuel shape mask) shape mask (S n) [k] out)
    | _, _ => scan shape mask cells' n out
    end
  end.

(** [ndimage.label(mask)]: label 0 is background, regions are numbered
    from 1 in raster order. *)
Definition label (mask : ndarray bool) : ndarray nat * nat :=
  let m := nd_data mask in
  let '(out, n) :=
    scan (nd_shape mask) m (seq 0 (length m)) 0 (replicate (length m) 0) in
  (mk_ndarray (nd_shape mask) out, n).

(** [ndimage.sum(input, labels, index)] on a boolean input: for each
    label of [index], the number of true cells carrying it. *)
Definition sum_label (input : list bool) (labels : list nat) (i : nat) : nat :=
  sum_list (zip_with (fun b l => if l =? i then Nat.b2n b else 0) input labels).

Definition ndimage_sum (input : list bool) (labels : list nat)
    (index : list nat) : list nat :=
  map (sum_label input labels) index.

(** [np.where(bs)[0]]: the positions of the true entries. *)
Fixpoint np_where_from (j : nat) (bs : list bool) : list nat :=
  match bs with
  | [] => []
  | b :: bs' => (if b then [j] else []) ++ np_where_from (S j) bs'
  end.
Definition np_where (bs : list bool) : list nat := np_where_from 0 bs.

(** [np.isin(xs, ys)] *)
Definition np_isin (xs ys : list nat) : list bool :=
  map (fun x => bool_decide (x ∈ ys)) xs.

(** [xr.where(cond, xs, 0)] *)
Definition where0 (cond : list bool) (xs : list nat) : list nat :=
  zip_with (fun (c : bool) x => if c then x else 0) cond xs.

(** [np.argwhere(bs)] on an array of the given shape. *)
Definition np_argwhere (shape : list nat) (bs : list bool) : list (list nat) :=
  map (unravel_index shape) (np_where bs).

(** [positions.mean(axis=0)] for positions of [ndim] coordinates. *)
Definition mean_axis0 (ndim : nat) (positions : list (list nat)) : list value :=
  map (fun a => mean_nat (map (fun p => nth a p 0) positions)) (seq 0 ndim).

(** [a.where(cond)]: the cells where [cond] fails become missing. *)
Definition da_where (vs : list value) (cond : list bool) : list value :=
  zip_with (fun v (c : bool) => if c then v else NaN) vs cond.

(** ** detect_eddies *)

(** The record stored per eddy. [area] is the entry of [sizes], a
    count of cells, kept as a natural number. *)
Record EddyProps : Type := mk_EddyProps {
  centroid : list value;
  area : nat;
  intensity : value
}.

#[global] Instance EddyProps_eq_dec : EqDecision EddyProps.
Proof. solve_decision. Defined.

Definition eq_label (labeled : list nat) (i : nat) : list bool :=
  map (fun l => l =? i) labeled.

(** The body of the loop [for i in range(1, num_features + 1)]. *)
Definition eddy_step (sla : DataArray) (labeled : ndarray nat)
    (sizes : list nat) (valid : list bool)
    (props : gmap nat EddyProps) (i : nat) : gmap nat EddyProps :=
  match valid !! (i - 1) with
  | Some true =>
    let positions := np_argwhere (nd_shape labeled) (eq_label (nd_data labeled) i) in
    let centroid := mean_axis0 (length (nd_shape labeled)) positions in
    let area := default 0 (sizes !! (i - 1)) in
    let intensity := nanmean (da_where (da_data sla) (eq_label (nd_data labeled) i)) in
    <[i := mk_EddyProps centroid area intensity]> props
  | _ => props
  end.

(** The defaults of the signature: [threshold=0.05], [min_size=5]. *)
Definition default_threshold : value := Num (Q2Qc (5 # 100)).
Definition default_min_size : Z := 5.

Definition detect_eddies (fs : FileSystem) (file_path : string)
    (threshold : value) (min_size : Z)
    : result (ndarray nat * gmap nat EddyProps) :=
  let* ds := open_dataset fs file_path in
  let* sla := getitem ds "sla" in
  let mask := mk_ndarray (da_shape sla) (map (fun v => gt v threshold) (da_data sla)) in
  let '(labeled, num_features) := label mask in
  let sizes := ndimage_sum (nd_data mask) (nd_data labeled) (seq 1 num_features) in
  let valid := map (fun s => bool_decide (min_size ≤ Z.of_nat s)%Z) sizes in
  let eddy_labels :=
    mk_ndarray (nd_shape labeled)
      (where0 (np_isin (nd_data labeled) (map S (np_where valid)))
              (nd_data labeled)) in
  let eddy_properties :=
    foldl (eddy_step sla labeled sizes valid) ∅ (seq 1 num_features) in
  Ok (eddy_labels, eddy_properties).

(** ** calculate_chlorophyll_anomaly *)

(** A named multi-index: the coordinate along each dimension name. *)
Definition index := string -> nat.

Definition set_coord (ix : index) (dim : string) (t : nat) : index :=
  fun y => if decide (y = dim) then t else ix y.

(** Flat position of a named multi-index in an array of dimensions [dims]. *)
Fixpoint ravel (dims : list (string * nat)) (ix : index) : nat :=
  match dims with
  | [] => 0
  | (x, _) :: rest => ix x * size_of (dim_sizes rest) + ravel rest ix
  end.

(** Named multi-index of flat position [k]. *)
Fixpoint unravel (dims : list (string * nat)) (k : nat) : index :=
  match dims with
  | [] => fun _ => 0
  | (x, _) :: rest =>
    fun y => if decide (y = x) then k / size_of (dim_sizes rest)
             else unravel rest (k mod size_of (dim_sizes rest)) y
  end.

(** The cell of [a] at a named multi-index. *)
Definition da_at (a : DataArray) (ix : index) : value :=
  default NaN (da_data a !! ravel (da_dims a) ix).

(** [a.sizes.get(dim)] *)
Fixpoint dim_size (dims : list (string * nat)) (dim : string) : option nat :=
  match dims with
  | [] => None
  | (x, n) :: rest => if decide (x = dim) then Some n else dim_size rest dim
  end.

Definition no_dim_msg : string := "dimension not found in array dimensions".
Definition mismatch_msg : string :=
  "operands cannot be broadcast together with mismatched lengths".

(** [a.mean(dim=dim, skipna=True)]: the dimension is reduced away; each
    remaining cell is the mean of the defined values along [dim]. *)
Definition da_mean (a : DataArray) (dim : string) : result DataArray :=
  match dim_size (da_dims a) dim with
  | None => Raise (ValueError no_dim_msg)
  | Some n =>
    let rdims := filter (fun d => d.1 <> dim) (da_dims a) in
    Ok (mk_DataArray rdims
          (map (fun k =>
                  nanmean (map (fun t => da_at a (set_coord (unravel rdims k) dim t))
                               (seq 0 n)))
               (seq 0 (size_of (dim_sizes rdims)))))
  end.

(** Broadcasting by name fails when a shared dimension has two sizes. *)
Definition compatible (da db : list (string * nat)) : bool :=
  forallb (fun d => match dim_size da d.1 with
                    | Some n => n =? d.2
                    | None => true
                    end) db.

(** [a - b] on DataArrays: the dimensions of [a], then those only [b]
    has; each operand is read at the coordinates of its own dimensions. *)
Definition da_sub (a b : DataArray) : result DataArray :=
  if compatible (da_dims a) (da_dims b) then
    let rdims :=
      da_dims a ++ filter (fun d => d.1 ∉ dim_names (da_dims a)) (da_dims b) in
    Ok (mk_DataArray rdims
          (map (fun k => vsub (da_at a (unravel rdims k)) (da_at b (unravel rdims k)))
               (seq 0 (size_of (dim_sizes rdims)))))
  else Raise (ValueError mismatch_msg).

Definition calculate_chlorophyll_anomaly (fs : FileSystem) (file_path : string)
    (climatology : option DataArray) : result DataArray :=
  let* ds := open_dataset fs file_path in
  let* chl := getitem ds "chlorophyll" in
  let* baseline :=
    match climatology with
    | None => da_mean chl "time"
    | Some c => Ok c
    end in
  da_sub chl baseline.

(** ** correlate_eddies_chlorophyll *)

Definition not_implemented_msg : string :=
  "Correlation function not yet implemented.".

(** [print] appends one line to the standard output, threaded as state. *)
Definition print (line : string) (stdout : list string) : list string :=
  stdout ++ [line].

Definition correlate_eddies_chlorophyll (eddy_labels : ndarray nat)
    (chl_anomaly : DataArray) (stdout : list string)
    : (value * gmap nat (list value)) * list string :=
  let stdout := print not_implemented_msg stdout in
  ((Num 0%Qc, ∅), stdout).

(** ** Notions used to state the properties *)

(** The 10 x 10 grid of the worked scenario: 0.10 on the 3 x 3 block
    whose upper left corner is [(r0, c0)], 0.0 elsewhere. *)
Definition in_block (r0 c0 k : nat) : bool :=
  (r0 <=? k / 10) && (k / 10 <? r0 + 3)
  && (c0 <=? k mod 10) && (k mod 10 <? c0 + 3).

Definition block_grid (r0 c0 : nat) : DataArray :=
  mk_DataArray [("lat", 10); ("lon", 10)]
    (map (fun k => if in_block r0 c0 k then Num (Q2Qc (1 # 10)) else Num 0%Qc)
         (seq 0 100)).

(** What the scenario expects for that grid: label 1 on the block, and
    one record with area 9, the centre of the block and intensity 0.10. *)
Definition block_labels (r0 c0 : nat) : ndarray nat :=
  mk_ndarray [10; 10]
    (map (fun k => if in_block r0 c0 k then 1 else 0) (seq 0 100)).

Definition block_props (r0 c0 : nat) : gmap nat EddyProps :=
  {[ 1 := mk_EddyProps [Num (Qc_of_nat (r0 + 1)); Num (Qc_of_nat (c0 + 1))]
                       9 (Num (Q2Qc (1 # 10))) ]}.

Definition one_file (name : string) (a : DataArray) : FileSystem :=
  {[ "f.nc" := {[ name := a ]} ]}.

(** A labelling is sound when only cells of the mask carry a label. *)
Definition sound (mask : list bool) (out : list nat) : Prop :=
  forall k l, out !! k = Some l -> l <> 0 -> mask !! k = Some true.

(** Every label is at most [n]. *)
Definition bounded (n : nat) (out : list nat) : Prop :=
  forall k l, out !! k = Some l -> l <= n.

(** Every label of [1 .. n] is carried by some cell. *)
Definition used (n : nat) (out : list nat) : Prop :=
  forall i, 1 <= i <= n -> i ∈ out.

(** Number of cells of the mask that carry no label yet. *)
Definition unlabelled (mask : list bool) (out : list nat) : nat :=
  sum_list (zip_with (fun (b : bool) l => if b && (l =? 0) then 1 else 0) mask out).

(** Every cell labelled [l] has its neighbours of the mask labelled or
    waiting in the work list. *)
Definition frontier (shape : list nat) (mask : list bool) (l : nat)
    (work : list nat) (out : list nat) : Prop :=
  forall c j, out !! c = Some l -> j ∈ neighbours shape c ->
    mask !! j = Some true ->
    (exists l', out !! j = Some l' /\ l' <> 0) \/ j ∈ work.

(** Two neighbouring cells of the mask carry the same label. *)
Definition uniform (shape : list nat) (mask : list bool) (out : list nat) : Prop :=
  forall c j l, out !! c = Some l -> l <> 0 -> j ∈ neighbours shape c ->
    mask !! j = Some true -> out !! j = Some l.

(** Cells reached from [root] by steps between neighbours, every cell
    left being a cell of the mask. *)
Inductive reach (shape : list nat) (mask : list bool) (root : nat) : nat -> Prop :=
| reach_root : reach shape mask root root
| reach_step c j :
    reach shape mask root c -> mask !! c = Some true ->
    j ∈ neighbours shape c -> reach shape mask root j.

(** Every region lies within reach of one of its cells. *)
Definition rooted (shape : list nat) (mask : list bool) (out : list nat) : Prop :=
  forall l, l <> 0 -> exists root, forall c, out !! c = Some l -> reach shape mask root c.

(** Number of cells of a label map that carry label [i]. *)
Definition cell_count (i : nat) (labels : list nat) : nat :=
  length (filter (fun l => l = i) labels).


(** The record the loop stores for label [i]. *)
Definition props_of (sla : DataArray) (labeled : ndarray nat)
    (sizes : list nat) (i : nat) : EddyProps :=
  mk_EddyProps
    (mean_axis0 (length (nd_shape labeled))
       (np_argwhere (nd_shape labeled) (eq_label (nd_data labeled) i)))
    (default 0 (sizes !! (i - 1)))
    (nanmean (da_where (da_data sla) (eq_label (nd_data labeled) i))).

Definition mask_of (sla : DataArray) (threshold : value) : ndarray bool :=
  mk_ndarray (da_shape sla) (map (fun v => gt v threshold) (da_data sla)).

Definition sizes_of (mask : ndarray bool) (labeled : ndarray nat) (n : nat) : list nat :=
  ndimage_sum (nd_data mask) (nd_data labeled) (seq 1 n).

Definition valid_of (sizes : list nat) (min_size : Z) : list bool :=
  map (fun s => bool_decide (min_size ≤ Z.of_nat s)%Z) sizes.

(** Label [i] passes the size filter. *)
Definition survives (mask : ndarray bool) (labeled : ndarray nat) (n : nat)
    (min_size : Z) (i : nat) : Prop :=
  1 <= i <= n /\ (min_size ≤ Z.of_nat (sum_label (nd_data mask) (nd_data labeled) i))%Z.


(** The scenario run on the file system that holds only the grid. *)
Definition block_check (r0 c0 : nat) : bool :=
  match detect_eddies (one_file "sla" (block_grid r0 c0)) "f.nc"
          (Num (Q2Qc (5 # 100))) 5 with
  | Ok (labels, props) =>
    bool_decide (nd_shape labels = nd_shape (block_labels r0 c0))
    && bool_decide (nd_data labels = nd_data (block_labels r0 c0))
    && bool_decide (props = block_props r0 c0)
  | Raise _ => false
  end.

(** The cell of a field at a flat position. *)
Definition cell (vs : list value) (k : nat) : value := default NaN (vs !! k).

(** Flat positions of the cells of a label map that carry label [i]. *)
Definition region_cells (labels : list nat) (i : nat) : list nat :=
  np_where (eq_label labels i).

(** A named multi-index lies within the dimensions. *)
Definition in_range (dims : list (string * nat)) (ix : index) : Prop :=
  forall x n, (x, n) ∈ dims -> ix x < n.



(** A small field with one missing cell, and a file system holding it. *)
Definition small_field : DataArray :=
  mk_DataArray [("lat", 2); ("lon", 3)]
    [Num 1%Qc; Num 1%Qc; Num 0%Qc; NaN; Num 0%Qc; Num 1%Qc].

(** A field over two times and two latitudes; the second latitude is
    missing at both times. *)
Definition masked_field : DataArray :=
  mk_DataArray [("time", 2); ("lat", 2)] [Num 1%Qc; NaN; Num 1%Qc; NaN].

(** A mask with three regions under connectivity 1: the corners touch
    the centre only diagonally. *)
Definition corner_mask : ndarray bool :=
  mk_ndarray [3; 3]
    [true; false; true;
     false; true; false;
     true; true; false].

(** A field over two times and two latitudes. *)
Definition squares_field : DataArray :=
  mk_DataArray [("time", 2); ("lat", 2)]
    (map (fun k => Num (Qc_of_nat (k * k))) (seq 0 4)).

(** The areas of all records, added up. *)
Definition total_area (props : gmap nat EddyProps) : nat :=
  sum_list_with (fun kp : nat * EddyProps => area kp.2) (map_to_list props).

(** Number of cells of a label map that carry a label. *)
Definition labelled_cells (labels : list nat) : nat :=
  length (filter (fun l => l <> 0) labels).
(** * Properties *)

(** ** The primitives on small inputs *)

Example label_corner_mask :
  label corner_mask
  = (mk_ndarray [3; 3] [1; 0; 2;
                        0; 3; 0;
                        3; 3; 0], 3).
Proof. reflexivity. Qed.

Example sizes_corner_mask :
  ndimage_sum (nd_data corner_mask) [1; 0; 2; 0; 3; 0; 3; 3; 0] (seq 1 3)
  = [1; 1; 3].
Proof. reflexivity. Qed.

Example argwhere_corner_mask :
  np_argwhere [3; 3] (eq_label [1; 0; 2; 0; 3; 0; 3; 3; 0] 3)
  = [[1; 1]; [2; 0]; [2; 1]].
Proof. reflexivity. Qed.

Example neighbours_centre : neighbours [3; 3] 4 = [1; 7; 3; 5].
Proof. reflexivity. Qed.

Example neighbours_corner : neighbours [3; 3] 0 = [3; 1].
Proof. reflexivity. Qed.

(** Surviving labels keep their number: with minimum size 3 only the
    third region of the corner mask is left, still under label 3. *)
Example detect_eddies_keeps_label_numbers :
  match detect_eddies
          (one_file "sla"
             (mk_DataArray [("lat", 3); ("lon", 3)]
                (map (fun b : bool => if b then Num 1%Qc else Num 0%Qc)
                     (nd_data corner_mask))))
          "f.nc" (Num 0%Qc) 3 with
  | Ok (labels, props) =>
    nd_data labels = [0; 0; 0; 0; 3; 0; 3; 3; 0] /\ dom props = {[ 3 ]}
  | Raise _ => False
  end.
Proof. vm_compute. split; reflexivity. Qed.

Example mean_over_time :
  bool_decide
    (da_mean squares_field "time"
     = Ok (mk_DataArray [("lat", 2)] [Num (Qc_of_nat 2); Num (Qc_of_nat 5)]))
  = true.
Proof. vm_compute. reflexivity. Qed.

(** A baseline without the time dimension is subtracted from every
    time slice. *)
Example subtract_broadcasts_over_time :
  bool_decide
    (da_sub squares_field
       (mk_DataArray [("lat", 2)] [Num (Qc_of_nat 2); Num (Qc_of_nat 5)])
     = Ok (mk_DataArray [("time", 2); ("lat", 2)]
             [Num (- Qc_of_nat 2); Num (- Qc_of_nat 4);
              Num (Qc_of_nat 2); Num (Qc_of_nat 4)]))
  = true.
Proof. vm_compute. reflexivity. Qed.

Example subtract_mismatched_lengths :
  da_sub squares_field (mk_DataArray [("lat", 3)] [NaN; NaN; NaN])
  = Raise (ValueError mismatch_msg).
Proof. reflexivity. Qed.

Example missing_file :
  detect_eddies ∅ "f.nc" (Num 0%Qc) 5 = Raise (FileNotFoundError "f.nc").
Proof. reflexivity. Qed.

(** ** Labelling: the contract of [ndimage.label] *)

Section Labelling.
Variables (shape : list nat) (mask : list bool).
Local Abbreviation sound := (sound mask).

Lemma flood_length fuel l work out :
  length (flood fuel shape mask l work out) = length out.
Proof.
  revert work out. induction fuel as [|fuel IH]; intros work out; [done|].
  destruct work as [|k work]; simpl; [done|].
  destruct (mask !! k) as [[]|]; try apply IH.
  destruct (out !! k) as [[|?]|]; rewrite IH; [|done..].
  by rewrite length_insert.
Qed.

Lemma flood_sound fuel l work out :
  sound out -> sound (flood fuel shape mask l work out).
Proof.
  revert work out. induction fuel as [|fuel IH]; intros work out Hs; [done|].
  destruct work as [|k work]; simpl; [done|].
  destruct (mask !! k) as [[]|] eqn:Hm; try by apply IH.
  destruct (out !! k) as [[|?]|] eqn:Ho; apply IH; try done.
  intros j l' Hj Hl'.
  destruct (decide (j = k)) as [->|Hne]; [done|].
  rewrite list_lookup_insert_ne in Hj by done. by eapply Hs.
Qed.

Lemma flood_bounded fuel l n work out :
  l <= n -> bounded n out -> bounded n (flood fuel shape mask l work out).
Proof.
  intros Hl. revert work out.
  induction fuel as [|fuel IH]; intros work out Hb; [done|].
  destruct work as [|k work]; simpl; [done|].
  destruct (mask !! k) as [[]|] eqn:Hm; try by apply IH.
  destruct (out !! k) as [[|?]|] eqn:Ho; apply IH; try done.
  intros j l' Hj.
  destruct (decide (j = k)) as [->|Hne].
  - apply lookup_lt_Some in Ho.
    rewrite list_lookup_insert_eq in Hj by done. by simplify_eq.
  - rewrite list_lookup_insert_ne in Hj by done. by eapply Hb.
Qed.

(** A cell that carries a label keeps it. *)
Lemma flood_keeps fuel l work out k l' :
  out !! k = Some l' -> l' <> 0 ->
  flood fuel shape mask l work out !! k = Some l'.
Proof.
  revert work out. induction fuel as [|fuel IH]; intros work out Hk Hl'; [done|].
  destruct work as [|j work]; simpl; [done|].
  destruct (mask !! j) as [[]|] eqn:Hm; try by apply IH.
  destruct (out !! j) as [[|?]|] eqn:Ho; apply IH; try done.
  rewrite list_lookup_insert_ne; [done|]. intros ->. congruence.
Qed.

(** The cell that opens a region receives the region's label. *)
Lemma flood_start l k out :
  l <> 0 -> mask !! k = Some true -> out !! k = Some 0 ->
  flood (flood_fuel shape mask) shape mask l [k] out !! k = Some l.
Proof.
  intros Hl Hm Ho. unfold flood_fuel. simpl. rewrite Hm, Ho.
  apply flood_keeps; [|done].
  apply list_lookup_insert_eq. by eapply lookup_lt_Some.
Qed.

Lemma flood_untouched fuel l work out k :
  mask !! k <> Some true ->
  flood fuel shape mask l work out !! k = out !! k.
Proof.
  revert work out. induction fuel as [|fuel IH]; intros work out Hk; [done|].
  destruct work as [|j work]; simpl; [done|].
  destruct (mask !! j) as [[]|] eqn:Hm; try by apply IH.
  destruct (out !! j) as [[|?]|] eqn:Ho; rewrite IH; try done.
  apply list_lookup_insert_ne. intros ->. congruence.
Qed.

Lemma used_mono n out out' :
  (forall k l, out !! k = Some l -> l <> 0 -> out' !! k = Some l) ->
  used n out -> used n out'.
Proof.
  intros Hk Hu i Hi. pose proof (Hu i Hi) as [k Hk']%list_elem_of_lookup.
  apply list_elem_of_lookup. exists k. apply Hk; [done|lia].
Qed.

Lemma scan_spec cells n out out' n' :
  scan shape mask cells n out = (out', n') ->
  sound out -> bounded n out -> used n out ->
  length out' = length out /\ sound out' /\ bounded n' out' /\ used n' out'
  /\ n <= n'
  /\ (forall k, k ∈ cells -> mask !! k = Some true -> k < length out ->
       exists l, out' !! k = Some l /\ l <> 0)
  /\ (forall k l, out !! k = Some l -> l <> 0 -> out' !! k = Some l).
Proof.
  revert n out. induction cells as [|c cells IH]; intros n out Hscan Hs Hb Hu.
  { simpl in Hscan. simplify_eq. split_and!; try done.
    intros k Hk. by apply elem_of_nil in Hk. }
  cbn [scan] in Hscan.
  assert (Hskip : scan shape mask cells n out = (out', n') ->
            (mask !! c <> Some true \/ (exists l, out !! c = Some l /\ l <> 0)
             \/ length out <= c) ->
            length out' = length out /\ sound out' /\ bounded n' out'
            /\ used n' out' /\ n <= n'
            /\ (forall k, k ∈ c :: cells -> mask !! k = Some true ->
                 k < length out -> exists l, out' !! k = Some l /\ l <> 0)
            /\ (forall k l, out !! k = Some l -> l <> 0 -> out' !! k = Some l)).
  { intros Hscan' Hc.
    destruct (IH _ _ Hscan' Hs Hb Hu) as (Hlen & Hs' & Hb' & Hu' & Hn & Hall & Hkeep).
    split_and!; try done.
    intros k [->|Hk]%elem_of_cons Hm Hlt; [|by apply Hall].
    destruct Hc as [Hc|[(l & Hl & Hl0)|Hc]]; [done| |lia].
    exists l. split; [by apply Hkeep|done]. }
  destruct (mask !! c) as [[]|] eqn:Hm;
    [|(apply Hskip; [done|by left])..].
  destruct (out !! c) as [[|l]|] eqn:Ho.
  - set (out1 := flood (flood_fuel shape mask) shape mask (S n) [c] out) in *.
    assert (Hc1 : out1 !! c = Some (S n)) by by apply flood_start.
    assert (Hkeep1 : forall k l, out !! k = Some l -> l <> 0 -> out1 !! k = Some l)
      by (intros; by apply flood_keeps).
    destruct (IH (S n) out1 Hscan) as (Hlen & Hs' & Hb' & Hu' & Hn & Hall & Hkeep).
    + by apply flood_sound.
    + apply flood_bounded; [lia|]. intros k l Hk. specialize (Hb k l Hk). lia.
    + intros i Hi. destruct (decide (i = S n)) as [->|Hne].
      * apply list_elem_of_lookup. by exists c.
      * apply (used_mono n out); [done..|lia].
    + unfold out1 in Hlen. rewrite flood_length in Hlen.
      split_and!; try done; [lia| |].
      * intros k [->|Hk]%elem_of_cons Hmk Hlt.
        -- exists (S n). split; [by apply Hkeep|done].
        -- apply Hall; [done..|]. unfold out1. by rewrite flood_length.
      * intros k l Hk Hl. apply Hkeep; [|done]. by apply Hkeep1.
  - apply Hskip; [done|]. right. left. by exists (S l).
  - apply Hskip; [done|]. right. right. by apply lookup_ge_None.
Qed.
End Labelling.

(** ** Labelling: regions are closed under adjacency *)

Lemma length_neighbours shape k : length (neighbours shape k) <= 2 * length shape.
Proof.
  revert k. induction shape as [|n shape IH]; intros k; [done|].
  cbn [neighbours]. rewrite !length_app, length_map.
  specialize (IH (k mod size_of shape)).
  destruct (0 <? _), (S _ <? n); simpl; lia.
Qed.

Lemma neighbours_lt shape k j :
  k < size_of shape -> j ∈ neighbours shape k -> j < size_of shape.
Proof.
  revert k j. induction shape as [|n shape IH]; intros k j Hk.
  { by intros ?%elem_of_nil. }
  cbn [neighbours]. change (size_of (n :: shape)) with (n * size_of shape) in *.
  set (s := size_of shape) in *.
  assert (0 < s) by (destruct s; lia).
  pose proof (Nat.div_mod_eq k s) as Hdm.
  pose proof (Nat.mod_upper_bound k s ltac:(lia)) as Hr.
  assert (k / s < n) by (apply Nat.Div0.div_lt_upper_bound; lia).
  rewrite !elem_of_app. intros [Hj|[Hj|Hj]].
  - destruct (Nat.ltb_spec 0 (k / s)); [|by apply elem_of_nil in Hj].
    apply list_elem_of_singleton in Hj as ->. lia.
  - destruct (Nat.ltb_spec (S (k / s)) n); [|by apply elem_of_nil in Hj].
    apply list_elem_of_singleton in Hj as ->.
    assert (S (S (k / s)) * s <= n * s) by (apply Nat.mul_le_mono_r; lia).
    lia.
  - change (map ?f) with (fmap (M:=list) f) in Hj.
    apply list_elem_of_fmap in Hj as (j' & -> & Hj').
    specialize (IH _ _ Hr Hj').
    assert (S (k / s) * s <= n * s) by (apply Nat.mul_le_mono_r; lia).
    lia.
Qed.

(** Adjacency is symmetric. *)
Lemma neighbours_sym shape k j :
  k < size_of shape -> j ∈ neighbours shape k -> k ∈ neighbours shape j.
Proof.
  revert k j. induction shape as [|n shape IH]; intros k j Hk.
  { by intros ?%elem_of_nil. }
  cbn [neighbours]. change (size_of (n :: shape)) with (n * size_of shape) in *.
  set (s := size_of shape) in *.
  assert (0 < s) by (destruct s; lia).
  pose proof (Nat.div_mod_eq k s) as Hdm.
  pose proof (Nat.mod_upper_bound k s ltac:(lia)) as Hr.
  assert (k / s < n) by (apply Nat.Div0.div_lt_upper_bound; lia).
  rewrite !elem_of_app. intros [Hj|[Hj|Hj]].
  - destruct (Nat.ltb_spec 0 (k / s)) as [Hc|]; [|by apply elem_of_nil in Hj].
    apply list_elem_of_singleton in Hj as ->.
    assert (s <= k) by nia.
    assert (Hq : (k - s) / s = k / s - 1).
    { replace (k - s) with (k mod s + (k / s - 1) * s) by nia.
      rewrite Nat.div_add by lia. rewrite Nat.div_small by done. lia. }
    rewrite Hq. right. left.
    destruct (Nat.ltb_spec (S (k / s - 1)) n); [|lia].
    apply list_elem_of_singleton. lia.
  - destruct (Nat.ltb_spec (S (k / s)) n) as [Hc|]; [|by apply elem_of_nil in Hj].
    apply list_elem_of_singleton in Hj as ->.
    assert (Hq : (k + s) / s = S (k / s)).
    { replace (k + s) with (k + 1 * s) by lia.
      rewrite Nat.div_add by lia. lia. }
    rewrite Hq. left. apply list_elem_of_singleton. lia.
  - change (map ?f) with (fmap (M:=list) f) in Hj.
    apply list_elem_of_fmap in Hj as (j' & -> & Hj').
    pose proof (neighbours_lt _ _ _ Hr Hj') as Hj's.
    assert (Hq : (k / s * s + j') / s = k / s).
    { rewrite Nat.add_comm, Nat.div_add by lia.
      rewrite Nat.div_small by done. lia. }
    assert (Hm : (k / s * s + j') mod s = j').
    { rewrite Nat.add_comm, Nat.Div0.mod_add. by apply Nat.mod_small. }
    rewrite Hq, Hm. right. right.
    change (map ?f) with (fmap (M:=list) f).
    apply list_elem_of_fmap. exists (k mod s). split; [lia|].
    by apply IH.
Qed.

Lemma unlabelled_le mask out : unlabelled mask out <= length mask.
Proof.
  unfold unlabelled. revert out.
  induction mask as [|b mask IH]; intros [|l out]; simpl; try lia.
  specialize (IH out). destruct (b && _); lia.
Qed.

Lemma unlabelled_insert mask out k l :
  l <> 0 -> mask !! k = Some true -> out !! k = Some 0 ->
  S (unlabelled mask (<[k := l]> out)) = unlabelled mask out.
Proof.
  intros Hl. unfold unlabelled. revert out k.
  induction mask as [|b mask IH]; intros [|l0 out] [|k] Hm Ho; try done.
  - simpl in *. simplify_eq. simpl. destruct l; [done|]. simpl. lia.
  - simpl in *. rewrite <- (IH out k Hm Ho). lia.
Qed.

Section Closure.
Variables (shape : list nat) (mask : list bool) (l : nat).
Hypothesis l_pos : l <> 0.

(** With fuel for every pending cell, the flood ends on an empty work
    list: every cell it labelled has its neighbours of the mask
    labelled. *)
Lemma flood_closed fuel work out :
  length out = length mask ->
  (2 * length shape + 1) * unlabelled mask out + length work <= fuel ->
  frontier shape mask l work out ->
  frontier shape mask l [] (flood fuel shape mask l work out).
Proof.
  revert work out. induction fuel as [|fuel IH]; intros work out Hlen Hfuel Hfr.
  { destruct work; [done|]. simpl in Hfuel. lia. }
  destruct work as [|k work]; [done|]. cbn [flood].
  assert (Hskip : (mask !! k <> Some true \/ exists l', out !! k = Some (S l')) ->
            frontier shape mask l [] (flood fuel shape mask l work out)).
  { intros Hk. apply IH; [done|simpl in Hfuel; lia|].
    intros c j Hc Hj Hmj. destruct (Hfr c j Hc Hj Hmj) as [?|Hin]; [by left|].
    apply elem_of_cons in Hin as [->|?]; [|by right].
    destruct Hk as [?|[l' Hl']]; [done|]. left. by exists (S l'). }
  destruct (mask !! k) as [[]|] eqn:Hm; [|apply Hskip; by left..].
  destruct (out !! k) as [[|l']|] eqn:Ho.
  - apply IH.
    + by rewrite length_insert.
    + pose proof (unlabelled_insert mask out k l l_pos Hm Ho) as Hu.
      pose proof (length_neighbours shape k) as Hn.
      rewrite length_app. simpl in Hfuel. nia.
    + intros c j Hc Hj Hmj. destruct (decide (j = k)) as [->|Hjk].
      { left. exists l. split; [|done].
        apply list_lookup_insert_eq. by eapply lookup_lt_Some. }
      rewrite list_lookup_insert_ne by done.
      destruct (decide (c = k)) as [->|Hck].
      { right. apply elem_of_app. by left. }
      rewrite list_lookup_insert_ne in Hc by done.
      destruct (Hfr c j Hc Hj Hmj) as [?|Hin]; [by left|].
      apply elem_of_cons in Hin as [?|?]; [done|].
      right. apply elem_of_app. by right.
  - apply Hskip. right. by exists l'.
  - apply lookup_ge_None in Ho. apply lookup_lt_Some in Hm. lia.
Qed.

(** A cell keeps what it had, or was free and received label [l]. *)
Lemma flood_cases fuel work out c :
  flood fuel shape mask l work out !! c = out !! c
  \/ (out !! c = Some 0 /\ flood fuel shape mask l work out !! c = Some l).
Proof.
  revert work out. induction fuel as [|fuel IH]; intros work out; [by left|].
  destruct work as [|k work]; [by left|]. cbn [flood].
  destruct (mask !! k) as [[]|] eqn:Hm; [|apply IH..].
  destruct (out !! k) as [[|l']|] eqn:Ho; [|apply IH..].
  destruct (IH (neighbours shape k ++ work) (<[k := l]> out)) as [He|[He1 He2]].
  - destruct (decide (c = k)) as [->|Hck].
    + right. split; [done|]. rewrite He.
      apply list_lookup_insert_eq. by eapply lookup_lt_Some.
    + left. by rewrite He, list_lookup_insert_ne.
  - destruct (decide (c = k)) as [->|Hck]; [right; by split|].
    rewrite list_lookup_insert_ne in He1 by done. right. by split.
Qed.
End Closure.

(** One more region keeps the labelling uniform. *)
Lemma flood_uniform shape mask n k out :
  length mask = size_of shape -> length out = length mask ->
  sound mask out -> bounded n out -> uniform shape mask out ->
  uniform shape mask (flood (flood_fuel shape mask) shape mask (S n) [k] out).
Proof.
  intros Hsz Hlen Hs Hb Hu.
  set (out' := flood (flood_fuel shape mask) shape mask (S n) [k] out).
  assert (Hcl : frontier shape mask (S n) [] out').
  { apply flood_closed; [done|done| |].
    - unfold flood_fuel. pose proof (unlabelled_le mask out). simpl. nia.
    - intros c j Hc. apply Hb in Hc. lia. }
  assert (Hcases : forall c, out' !! c = out !! c
                     \/ (out !! c = Some 0 /\ out' !! c = Some (S n)))
    by (intros c; apply flood_cases).
  assert (Hs' : sound mask out') by by apply flood_sound.
  intros c j l Hc Hl Hj Hmj.
  destruct (Hcases c) as [Hec|[Hc0 HcS]].
  - rewrite Hec in Hc. specialize (Hu c j l Hc Hl Hj Hmj).
    destruct (Hcases j) as [Hej|[Hj0 _]]; [by rewrite Hej|].
    rewrite Hu in Hj0. by simplify_eq.
  - rewrite HcS in Hc. simplify_eq.
    destruct (Hcl c j HcS Hj Hmj) as [(l' & Hl' & Hne)|Hin];
      [|by apply elem_of_nil in Hin].
    destruct (Hcases j) as [Hej|[_ HjS]]; [|done].
    rewrite Hej in Hl'.
    assert (Hck : c < size_of shape).
    { rewrite <- Hsz, <- Hlen. by eapply lookup_lt_Some. }
    pose proof (neighbours_sym _ _ _ Hck Hj) as Hsym.
    assert (Hmc : mask !! c = Some true) by by apply (Hs' c (S n)).
    specialize (Hu j c l' Hl' Hne Hsym Hmc). rewrite Hu in Hc0. by simplify_eq.
Qed.

Lemma scan_uniform shape mask cells n out out' n' :
  length mask = size_of shape -> length out = length mask ->
  scan shape mask cells n out = (out', n') ->
  sound mask out -> bounded n out -> uniform shape mask out ->
  uniform shape mask out'.
Proof.
  intros Hsz. revert n out.
  induction cells as [|c cells IH]; intros n out Hlen Hscan Hs Hb Hu.
  { simpl in Hscan. by simplify_eq. }
  cbn [scan] in Hscan.
  destruct (mask !! c) as [[]|] eqn:Hm; [|by eapply IH..].
  destruct (out !! c) as [[|l]|] eqn:Ho; [|by eapply IH..].
  eapply IH; [|done| | |].
  - by rewrite flood_length.
  - by apply flood_sound.
  - apply flood_bounded; [lia|]. intros k l Hk. specialize (Hb k l Hk). lia.
  - by apply flood_uniform.
Qed.

(** In the result of [ndimage.label], two neighbouring cells of the
    mask carry the same label: a region is closed under adjacency. *)
Lemma label_uniform (mask : ndarray bool) labeled n :
  length (nd_data mask) = size_of (nd_shape mask) ->
  label mask = (labeled, n) ->
  uniform (nd_shape mask) (nd_data mask) (nd_data labeled).
Proof.
  unfold label. intros Hsz Hl.
  destruct (scan _ _ _ _ _) as [out n0] eqn:Hscan. simplify_eq. simpl.
  eapply scan_uniform; [done| |done| | |].
  - by rewrite length_replicate.
  - intros k l [-> _]%lookup_replicate. done.
  - intros k l [-> _]%lookup_replicate. lia.
  - intros c j l [-> _]%lookup_replicate. done.
Qed.

(** ** Labelling: regions are connected *)

Lemma flood_reach shape mask l root fuel work out :
  l <> 0 ->
  (forall j, j ∈ work -> reach shape mask root j) ->
  (forall c, out !! c = Some l -> reach shape mask root c) ->
  forall c, flood fuel shape mask l work out !! c = Some l ->
            reach shape mask root c.
Proof.
  intros Hl. revert work out.
  induction fuel as [|fuel IH]; intros work out Hw Ho; [done|].
  destruct work as [|k work]; [done|]. cbn [flood].
  assert (Hw' : forall j, j ∈ work -> reach shape mask root j).
  { intros j Hj. apply Hw. by right. }
  destruct (mask !! k) as [[]|] eqn:Hm; [|by apply IH..].
  destruct (out !! k) as [[|l']|] eqn:Hk; [|by apply IH..].
  assert (Hrk : reach shape mask root k) by (apply Hw; by left).
  apply IH.
  - intros j [Hj|Hj]%elem_of_app; [|by apply Hw'].
    by apply (reach_step _ _ _ k).
  - intros c Hc. destruct (decide (c = k)) as [->|Hck]; [done|].
    rewrite list_lookup_insert_ne in Hc by done. by apply Ho.
Qed.

Lemma scan_rooted shape mask cells n out out' n' :
  scan shape mask cells n out = (out', n') ->
  bounded n out -> rooted shape mask out -> rooted shape mask out'.
Proof.
  revert n out. induction cells as [|c cells IH]; intros n out Hscan Hb Hr.
  { simpl in Hscan. by simplify_eq. }
  cbn [scan] in Hscan.
  destruct (mask !! c) as [[]|] eqn:Hm; [|by eapply IH..].
  destruct (out !! c) as [[|l]|] eqn:Ho; [|by eapply IH..].
  eapply IH; [done| |].
  - apply flood_bounded; [lia|]. intros k l Hk. specialize (Hb k l Hk). lia.
  - intros l Hl. destruct (decide (l = S n)) as [->|Hne].
    + exists c. apply flood_reach; [done| |].
      * intros j ->%list_elem_of_singleton. constructor.
      * intros k Hk. apply Hb in Hk. lia.
    + destruct (Hr l Hl) as [root Hroot]. exists root. intros k Hk.
      destruct (flood_cases shape mask (S n) (flood_fuel shape mask) [c] out k)
        as [He|[_ He]]; [|congruence].
      apply Hroot. by rewrite <- He.
Qed.

(** In the result of [ndimage.label], the cells of a region are all
    within reach of one cell of the region. *)
Lemma label_rooted (mask : ndarray bool) labeled n :
  label mask = (labeled, n) ->
  rooted (nd_shape mask) (nd_data mask) (nd_data labeled).
Proof.
  unfold label. intros Hl.
  destruct (scan _ _ _ _ _) as [out n0] eqn:Hscan. simplify_eq. simpl.
  eapply scan_rooted; [done| |].
  - intros k l [-> _]%lookup_replicate. lia.
  - intros l Hl. exists 0. intros c [-> _]%lookup_replicate. done.
Qed.

(** [ndimage.label] keeps the shape, labels exactly the cells of the
    mask, and uses exactly the labels [1 .. num_features]. *)
Lemma label_spec (mask : ndarray bool) labeled n :
  label mask = (labeled, n) ->
  nd_shape labeled = nd_shape mask
  /\ length (nd_data labeled) = length (nd_data mask)
  /\ (forall k l, nd_data labeled !! k = Some l ->
       (l <> 0 <-> nd_data mask !! k = Some true))
  /\ (forall k l, nd_data labeled !! k = Some l -> l <= n)
  /\ (forall i, 1 <= i <= n -> i ∈ nd_data labeled).
Proof.
  unfold label. intros Hl.
  destruct (scan _ _ _ _ _) as [out n0] eqn:Hscan. simplify_eq. simpl.
  apply scan_spec in Hscan as (Hlen & Hs & Hb & Hu & _ & Hall & _).
  - rewrite length_replicate in Hlen. split_and!; try done.
    intros k l Hk. split; [by eapply Hs|].
    intros Hm. destruct (Hall k) as (l' & Hl' & Hne); [|done| |congruence].
    + apply elem_of_seq. apply lookup_lt_Some in Hm. lia.
    + rewrite length_replicate. by eapply lookup_lt_Some.
  - intros k l [-> _]%lookup_replicate. done.
  - intros k l [-> _]%lookup_replicate. lia.
  - intros i Hi. lia.
Qed.

(** ** The pieces of [detect_eddies] *)

Lemma elem_of_np_where_from j bs i :
  i ∈ np_where_from j bs <-> exists m, i = j + m /\ bs !! m = Some true.
Proof.
  revert j. induction bs as [|b bs IH]; intros j; simpl.
  - split; [by intros ?%elem_of_nil|]. by intros (m & _ & ?).
  - rewrite elem_of_app, IH. split.
    + intros [Hi|(m & -> & Hm)].
      * destruct b; [|by apply elem_of_nil in Hi].
        apply list_elem_of_singleton in Hi as ->. exists 0. split; [lia|done].
      * exists (S m). split; [lia|done].
    + intros ([|m] & -> & Hm); simpl in Hm.
      * left. simplify_eq. rewrite Nat.add_0_r. apply list_elem_of_singleton. done.
      * right. exists m. split; [lia|done].
Qed.

Lemma elem_of_np_where bs i : i ∈ np_where bs <-> bs !! i = Some true.
Proof.
  unfold np_where. rewrite elem_of_np_where_from. split.
  - by intros (m & -> & Hm).
  - intros Hi. by exists i.
Qed.

Lemma where0_isin ls (vs : list nat) :
  where0 (np_isin ls vs) ls = map (fun l => if bool_decide (l ∈ vs) then l else 0) ls.
Proof. unfold where0, np_isin. induction ls as [|l ls IH]; simpl; by f_equal. Qed.

Lemma sum_label_count mask labeled i :
  i <> 0 -> length labeled = length mask ->
  (forall k l, labeled !! k = Some l -> l <> 0 -> mask !! k = Some true) ->
  sum_label mask labeled i = cell_count i labeled.
Proof.
  intros Hi. unfold sum_label, cell_count.
  revert mask. induction labeled as [|l ls IH]; intros [|b mask] Hlen Hs; try done.
  simpl in *. rewrite filter_cons.
  specialize (IH mask ltac:(lia) (fun k => Hs (S k))).
  destruct (Nat.eqb_spec l i) as [->|Hne].
  - specialize (Hs 0 i eq_refl Hi). simpl in Hs. simplify_eq.
    case_decide; [|done]. simpl. by rewrite IH.
  - case_decide; [done|]. by rewrite IH.
Qed.

Lemma cell_count_filtered i ls (vs : list nat) :
  i <> 0 -> i ∈ vs ->
  cell_count i (map (fun l => if bool_decide (l ∈ vs) then l else 0) ls)
  = cell_count i ls.
Proof.
  intros Hi Hv. unfold cell_count. induction ls as [|l ls IH]; [done|].
  simpl. rewrite !filter_cons.
  destruct (decide (l = i)) as [->|Hne].
  - rewrite bool_decide_eq_true_2 by done.
    rewrite decide_True by done. simpl. by rewrite IH.
  - case_bool_decide; by rewrite decide_False by congruence.
Qed.

Lemma cell_count_pos i (ls : list nat) : i ∈ ls <-> 0 < cell_count i ls.
Proof.
  unfold cell_count. induction ls as [|l ls IH]; simpl.
  - split; [by intros ?%elem_of_nil|lia].
  - rewrite filter_cons, elem_of_cons.
    destruct (decide (l = i)) as [->|Hne]; simpl; [split; [lia|by left]|].
    rewrite <- IH. split; [by intros [?|?]|by right].
Qed.

Lemma foldl_eddy_step_lookup sla labeled sizes valid idx props i :
  foldl (eddy_step sla labeled sizes valid) props idx !! i =
  if decide (i ∈ idx /\ valid !! (i - 1) = Some true)
  then Some (props_of sla labeled sizes i) else props !! i.
Proof.
  revert props. induction idx as [|j idx IH]; intros props; cbn [foldl].
  { case_decide as H; [|done]. by destruct H as [?%elem_of_nil _]. }
  rewrite IH. clear IH.
  destruct (decide (i ∈ idx /\ valid !! (i - 1) = Some true)) as [[Hi Hv]|Hn].
  { rewrite decide_True; [done|]. split; [by right|done]. }
  unfold eddy_step.
  destruct (decide (i = j)) as [->|Hne].
  - destruct (valid !! (j - 1)) as [[]|] eqn:Hv.
    + rewrite decide_True by (split; [by left|done]). by rewrite lookup_insert_eq.
    + rewrite decide_False; [done|]. by intros [_ ?].
    + rewrite decide_False; [done|]. by intros [_ ?].
  - rewrite decide_False.
    + destruct (valid !! (j - 1)) as [[]|]; [|done..]. by rewrite lookup_insert_ne.
    + intros [[?|?]%elem_of_cons ?]; [done|]. by apply Hn.
Qed.

Lemma ndimage_sum_lookup mask labeled n j :
  j < n ->
  ndimage_sum mask labeled (seq 1 n) !! j = Some (sum_label mask labeled (S j)).
Proof.
  intros Hj. unfold ndimage_sum. rewrite list_lookup_fmap, lookup_seq_lt by done.
  done.
Qed.



(** ** The result of [detect_eddies] in terms of the labelling *)

Lemma detect_eddies_run fs path thr ms ds sla :
  fs !! path = Some ds -> ds !! "sla" = Some sla ->
  exists labeled n,
    label (mask_of sla thr) = (labeled, n)
    /\ detect_eddies fs path thr ms =
       Ok (mk_ndarray (nd_shape labeled)
             (map (fun l =>
                     if bool_decide
                          (l ∈ map S (np_where
                                 (valid_of (sizes_of (mask_of sla thr) labeled n) ms)))
                     then l else 0)
                  (nd_data labeled)),
           foldl (eddy_step sla labeled (sizes_of (mask_of sla thr) labeled n)
                    (valid_of (sizes_of (mask_of sla thr) labeled n) ms))
                 ∅ (seq 1 n)).
Proof.
  intros Hfs Hds. unfold detect_eddies, open_dataset, getitem.
  rewrite Hfs. cbn [bind]. rewrite Hds. cbn [bind].
  fold (mask_of sla thr).
  destruct (label (mask_of sla thr)) as [labeled n] eqn:Hlab.
  exists labeled, n. split; [done|].
  by rewrite where0_isin.
Qed.

Lemma valid_of_lookup mask labeled n ms i :
  valid_of (sizes_of mask labeled n) ms !! (i - 1) = Some true /\ 1 <= i
  <-> survives mask labeled n ms i.
Proof.
  unfold valid_of, sizes_of, survives. rewrite list_lookup_fmap.
  destruct (decide (1 <= i <= n)) as [Hi|Hi].
  - rewrite ndimage_sum_lookup by lia. replace (S (i - 1)) with i by lia.
    simpl. split.
    + intros [Hv _]. split; [done|]. simplify_eq.
      by apply bool_decide_eq_true_1 in Hv.
    + intros [_ Hv]. split; [|lia]. f_equal. by apply bool_decide_eq_true_2.
  - split; [|by intros [? _]]. intros [Hv H1].
    apply fmap_Some in Hv as (s & Hs & _). apply lookup_lt_Some in Hs.
    unfold ndimage_sum in Hs. rewrite length_map, length_seq in Hs. lia.
Qed.

Lemma valid_labels_spec mask labeled n ms i :
  i ∈ map S (np_where (valid_of (sizes_of mask labeled n) ms))
  <-> survives mask labeled n ms i.
Proof.
  rewrite <- valid_of_lookup. change (map S) with (fmap (M:=list) S).
  rewrite list_elem_of_fmap. split.
  - intros (j & -> & Hj%elem_of_np_where). simpl. rewrite Nat.sub_0_r.
    split; [done|lia].
  - intros [Hv Hi]. exists (i - 1). split; [lia|]. by apply elem_of_np_where.
Qed.

Lemma props_lookup sla mask labeled n ms i :
  foldl (eddy_step sla labeled (sizes_of mask labeled n)
           (valid_of (sizes_of mask labeled n) ms)) ∅ (seq 1 n) !! i
  = if decide (survives mask labeled n ms i)
    then Some (props_of sla labeled (sizes_of mask labeled n) i) else None.
Proof.
  rewrite foldl_eddy_step_lookup, lookup_empty.
  destruct (decide (survives mask labeled n ms i)) as [Hs|Hs].
  - rewrite decide_True; [done|]. pose proof Hs as [Hi _].
    apply valid_of_lookup in Hs as [Hv _]. split; [|done].
    apply elem_of_seq. lia.
  - rewrite decide_False; [done|]. intros [Hi%elem_of_seq Hv].
    apply Hs, valid_of_lookup. split; [done|lia].
Qed.

Lemma props_area sla mask labeled n ms i :
  survives mask labeled n ms i ->
  area (props_of sla labeled (sizes_of mask labeled n) i)
  = sum_label (nd_data mask) (nd_data labeled) i.
Proof.
  intros [Hi _]. unfold props_of, sizes_of. simpl.
  rewrite ndimage_sum_lookup by lia. simpl. f_equal. lia.
Qed.

(** For a surviving label, the size [ndimage.sum] reports is the number
    of cells that carry the label, before and after the filter. *)
Lemma survivor_count sla thr labeled n ms i :
  label (mask_of sla thr) = (labeled, n) ->
  survives (mask_of sla thr) labeled n ms i ->
  sum_label (nd_data (mask_of sla thr)) (nd_data labeled) i
  = cell_count i (nd_data labeled)
  /\ cell_count i
       (map (fun l =>
               if bool_decide
                    (l ∈ map S (np_where
                           (valid_of (sizes_of (mask_of sla thr) labeled n) ms)))
               then l else 0)
            (nd_data labeled))
     = cell_count i (nd_data labeled)
  /\ 0 < cell_count i (nd_data labeled).
Proof.
  intros Hlab Hs. pose proof Hs as [Hi _].
  apply label_spec in Hlab as (_ & Hlen & Hmask & _ & Hused).
  split_and!.
  - apply sum_label_count; [lia|done|].
    intros k l Hk Hl. by apply (Hmask k l).
  - apply cell_count_filtered; [lia|]. by apply valid_labels_spec.
  - apply cell_count_pos. by apply Hused.
Qed.

(** ** detect_eddies: labels and statistics agree *)

(** C1: the label map has the shape of the field, the nonzero labels of
    the map are exactly the keys of the statistics, and every key's
    region has at least [min_size] cells (its reported area being that
    cell count). *)
Theorem detect_eddies_labels_match_stats fs path thr ms ds sla :
  fs !! path = Some ds -> ds !! "sla" = Some sla ->
  exists labels props,
    detect_eddies fs path thr ms = Ok (labels, props)
    /\ nd_shape labels = da_shape sla
    /\ length (nd_data labels) = length (da_data sla)
    /\ (forall l, l ∈ nd_data labels -> l <> 0 -> is_Some (props !! l))
    /\ (forall i, is_Some (props !! i) -> i <> 0 /\ i ∈ nd_data labels)
    /\ (forall i p, props !! i = Some p ->
          area p = cell_count i (nd_data labels)
          /\ (ms ≤ Z.of_nat (cell_count i (nd_data labels)))%Z).
Proof.
  intros Hfs Hds.
  destruct (detect_eddies_run fs path thr ms ds sla Hfs Hds)
    as (labeled & n & Hlab & ->).
  pose proof (label_spec _ _ _ Hlab) as (Hshape & Hlen & _).
  eexists _, _. split; [done|]. cbn [nd_shape nd_data].
  split_and!.
  - done.
  - rewrite length_map, Hlen. simpl. by rewrite length_map.
  - intros l Hl Hl0. rewrite props_lookup.
    change (map ?f) with (fmap (M:=list) f) in Hl.
    apply list_elem_of_fmap in Hl as (l' & -> & Hl').
    case_bool_decide as Hv; [|done].
    apply valid_labels_spec in Hv. rewrite decide_True by done. eauto.
  - intros i [p Hp]. rewrite props_lookup in Hp.
    case_decide as Hs; [|done].
    destruct (survivor_count _ _ _ _ _ _ Hlab Hs) as (_ & Hout & Hpos).
    split; [destruct Hs; lia|]. apply cell_count_pos. by rewrite Hout.
  - intros i p Hp. rewrite props_lookup in Hp.
    case_decide as Hs; [|done]. simplify_eq.
    destruct (survivor_count _ _ _ _ _ _ Hlab Hs) as (Hsum & Hout & _).
    rewrite (props_area _ _ _ _ ms), Hout, <- Hsum by done.
    split; [done|]. by destruct Hs.
Qed.

Lemma detect_eddies_labels_match_stats_witness :
  exists labels props,
    detect_eddies (one_file "sla" small_field) "f.nc" (Num 0%Qc) 1 = Ok (labels, props)
    /\ nd_shape labels = da_shape small_field
    /\ length (nd_data labels) = length (da_data small_field)
    /\ (forall l, l ∈ nd_data labels -> l <> 0 -> is_Some (props !! l))
    /\ (forall i, is_Some (props !! i) -> i <> 0 /\ i ∈ nd_data labels)
    /\ (forall i p, props !! i = Some p ->
          area p = cell_count i (nd_data labels)
          /\ (1 ≤ Z.of_nat (cell_count i (nd_data labels)))%Z).
Proof.
  apply (detect_eddies_labels_match_stats
           (one_file "sla" small_field) "f.nc" (Num 0%Qc) 1
           {[ "sla" := small_field ]} small_field); reflexivity.
Defined.

(** ** detect_eddies: the size filter is monotone *)

Lemma survives_mono mask labeled n m1 m2 i :
  (m1 ≤ m2)%Z -> survives mask labeled n m2 i -> survives mask labeled n m1 i.
Proof. intros Hm [Hi Hs]. split; [done|lia]. Qed.

(** C4: with the field and the threshold fixed, a larger minimum size
    keeps a subset of the regions, hence never more of them. *)
Theorem detect_eddies_min_size_monotone fs path thr m1 m2 ds sla :
  fs !! path = Some ds -> ds !! "sla" = Some sla -> (m1 ≤ m2)%Z ->
  exists l1 p1 l2 p2,
    detect_eddies fs path thr m1 = Ok (l1, p1)
    /\ detect_eddies fs path thr m2 = Ok (l2, p2)
    /\ dom p2 ⊆ dom p1
    /\ size p2 <= size p1.
Proof.
  intros Hfs Hds Hm.
  destruct (detect_eddies_run fs path thr m1 ds sla Hfs Hds)
    as (labeled & n & Hlab & ->).
  destruct (detect_eddies_run fs path thr m2 ds sla Hfs Hds)
    as (labeled2 & n2 & Hlab2 & ->).
  rewrite Hlab in Hlab2. simplify_eq.
  eexists _, _, _, _. split; [done|]. split; [done|].
  match goal with |- ?P /\ _ => assert (Hsub : P) end.
  { intros i [p Hp]%elem_of_dom. apply elem_of_dom.
    rewrite props_lookup in Hp. rewrite props_lookup.
    case_decide as Hs; [|done].
    rewrite decide_True by (by eapply survives_mono). eauto. }
  split; [done|].
  rewrite <- !size_dom. by apply subseteq_size.
Qed.

Lemma detect_eddies_min_size_monotone_witness :
  exists l1 p1 l2 p2,
    detect_eddies (one_file "sla" small_field) "f.nc" (Num 0%Qc) 1 = Ok (l1, p1)
    /\ detect_eddies (one_file "sla" small_field) "f.nc" (Num 0%Qc) 2 = Ok (l2, p2)
    /\ dom p2 ⊆ dom p1
    /\ size p2 <= size p1.
Proof.
  apply (detect_eddies_min_size_monotone
           (one_file "sla" small_field) "f.nc" (Num 0%Qc) 1 2
           {[ "sla" := small_field ]} small_field); [reflexivity..|lia].
Defined.

(** ** detect_eddies: a threshold above the field *)






(** ** detect_eddies: statistics are taken over the region's cells *)

Lemma np_where_from_S j bs :
  np_where_from (S j) bs = S <$> np_where_from j bs.
Proof.
  revert j. induction bs as [|b bs IH]; intros j; [done|].
  simpl. rewrite fmap_app, IH. by destruct b.
Qed.

Lemma length_region_cells labels i :
  length (region_cells labels i) = cell_count i labels.
Proof.
  unfold region_cells, np_where, cell_count, eq_label.
  generalize 0 as j. induction labels as [|l ls IH]; intros j; [done|].
  simpl. rewrite filter_cons, length_app, IH.
  destruct (Nat.eqb_spec l i); case_decide; done.
Qed.

Lemma vals_da_where vs cs :
  length vs = length cs ->
  vals (da_where vs cs) = vals (map (cell vs) (np_where cs)).
Proof.
  unfold np_where, da_where, vals.
  revert cs. induction vs as [|v vs IH]; intros [|c cs] Hlen; try done.
  simpl in Hlen. specialize (IH cs ltac:(lia)).
  cbn [zip_with np_where_from].
  change (map ?f) with (fmap (M:=list) f) in *.
  rewrite fmap_app, omap_app, np_where_from_S, <- list_fmap_compose.
  change (cell (v :: vs) ∘ S) with (cell vs).
  rewrite <- IH. by destruct c, v.
Qed.

Lemma region_cells_filtered (vs : list nat) ls i :
  i <> 0 -> i ∈ vs ->
  region_cells (map (fun l => if bool_decide (l ∈ vs) then l else 0) ls) i
  = region_cells ls i.
Proof.
  intros Hi Hv. unfold region_cells, eq_label. f_equal.
  change (map ?f) with (fmap (M:=list) f). rewrite <- list_fmap_compose.
  apply list_fmap_ext. intros _ l _. simpl.
  case_bool_decide as Hl; [done|].
  destruct (Nat.eqb_spec l i) as [->|?]; [done|].
  by destruct (Nat.eqb_spec 0 i).
Qed.

(** C9: a missing cell never passes the threshold test, is background
    in the label map, and belongs to no region; area, centroid and
    intensity of a region are computed from the region's cells alone. *)
Theorem detect_eddies_missing_cells_excluded fs path thr ms ds sla k :
  fs !! path = Some ds -> ds !! "sla" = Some sla ->
  da_data sla !! k = Some NaN ->
  exists labels props,
    detect_eddies fs path thr ms = Ok (labels, props)
    /\ nd_data (mask_of sla thr) !! k = Some false
    /\ nd_data labels !! k = Some 0
    /\ (forall i p, props !! i = Some p ->
          (k ∉ region_cells (nd_data labels) i)
          /\ area p = length (region_cells (nd_data labels) i)
          /\ centroid p
             = mean_axis0 (length (nd_shape labels))
                 (map (unravel_index (nd_shape labels))
                      (region_cells (nd_data labels) i))
          /\ intensity p
             = nanmean (map (cell (da_data sla)) (region_cells (nd_data labels) i))).
Proof.
  intros Hfs Hds Hk.
  destruct (detect_eddies_run fs path thr ms ds sla Hfs Hds)
    as (labeled & n & Hlab & ->).
  pose proof (label_spec _ _ _ Hlab) as (Hshape & Hlen & Hmask & _).
  assert (Hmk : nd_data (mask_of sla thr) !! k = Some false).
  { simpl. by rewrite list_lookup_fmap, Hk. }
  assert (Hlk : nd_data labeled !! k = Some 0).
  { destruct (nd_data labeled !! k) as [l|] eqn:Hl.
    - destruct (decide (l = 0)) as [->|Hne]; [done|].
      apply (Hmask k l Hl) in Hne. congruence.
    - apply lookup_ge_None in Hl. apply lookup_lt_Some in Hmk. lia. }
  eexists _, _. split; [done|]. cbn [nd_shape nd_data].
  split; [done|]. split.
  { change (map ?f) with (fmap (M:=list) f).
    rewrite list_lookup_fmap, Hlk. simpl. by case_bool_decide. }
  intros i p Hp. rewrite props_lookup in Hp.
  case_decide as Hs; [|done]. simplify_eq.
  destruct (survivor_count _ _ _ _ _ _ Hlab Hs) as (Hsum & _ & _).
  rewrite region_cells_filtered;
    [|destruct Hs; lia|by apply valid_labels_spec].
  split_and!.
  - unfold region_cells, eq_label. rewrite elem_of_np_where.
    change (map ?f) with (fmap (M:=list) f).
    rewrite list_lookup_fmap, Hlk. destruct Hs as [Hi _].
    destruct i; [lia|done].
  - by rewrite (props_area _ _ _ _ ms), length_region_cells.
  - done.
  - unfold props_of, nanmean. cbn [intensity].
    rewrite vals_da_where; [done|].
    unfold eq_label. rewrite length_map, Hlen. simpl. by rewrite length_map.
Qed.

Lemma detect_eddies_missing_cells_excluded_witness :
  exists labels props,
    detect_eddies (one_file "sla" small_field) "f.nc" (Num 0%Qc) 1
    = Ok (labels, props)
    /\ nd_data (mask_of small_field (Num 0%Qc)) !! 3 = Some false
    /\ nd_data labels !! 3 = Some 0
    /\ (forall i p, props !! i = Some p ->
          (3 ∉ region_cells (nd_data labels) i)
          /\ area p = length (region_cells (nd_data labels) i)
          /\ centroid p
             = mean_axis0 (length (nd_shape labels))
                 (map (unravel_index (nd_shape labels))
                      (region_cells (nd_data labels) i))
          /\ intensity p
             = nanmean (map (cell (da_data small_field))
                            (region_cells (nd_data labels) i))).
Proof.
  apply (detect_eddies_missing_cells_excluded
           (one_file "sla" small_field) "f.nc" (Num 0%Qc) 1
           {[ "sla" := small_field ]} small_field 3); reflexivity.
Defined.

(** ** detect_eddies: the worked scenario *)

(** The result depends on the file system only through the field. *)
Lemma detect_eddies_ext fs path ds fs' path' ds' sla thr ms :
  fs !! path = Some ds -> ds !! "sla" = Some sla ->
  fs' !! path' = Some ds' -> ds' !! "sla" = Some sla ->
  detect_eddies fs path thr ms = detect_eddies fs' path' thr ms.
Proof.
  intros Hfs Hds Hfs' Hds'. unfold detect_eddies, open_dataset, getitem.
  rewrite Hfs, Hfs'. cbn [bind]. by rewrite Hds, Hds'.
Qed.

Lemma block_check_all :
  forallb (fun r0 => forallb (block_check r0) (seq 0 8)) (seq 0 8) = true.
Proof. vm_compute. reflexivity. Qed.

(** C3: on the 10 x 10 grid with one 3 x 3 block of 0.10, threshold 0.05
    and minimum size 5 give exactly one record: area 9, centroid at the
    centre of the block, intensity 0.10. *)
Theorem detect_eddies_single_block fs path ds r0 c0 :
  fs !! path = Some ds -> ds !! "sla" = Some (block_grid r0 c0) ->
  r0 <= 7 -> c0 <= 7 ->
  detect_eddies fs path (Num (Q2Qc (5 # 100))) 5
  = Ok (block_labels r0 c0, block_props r0 c0).
Proof.
  intros Hfs Hds Hr Hc.
  rewrite (detect_eddies_ext fs path ds
             (one_file "sla" (block_grid r0 c0)) "f.nc"
             {[ "sla" := block_grid r0 c0 ]} (block_grid r0 c0)) by done.
  pose proof block_check_all as Hall.
  rewrite forallb_forall in Hall.
  assert (Hr0 : In r0 (seq 0 8)) by (apply in_seq; lia).
  specialize (Hall r0 Hr0). rewrite forallb_forall in Hall.
  assert (Hc0 : In c0 (seq 0 8)) by (apply in_seq; lia).
  specialize (Hall c0 Hc0). unfold block_check in Hall.
  destruct (detect_eddies _ _ _ _) as [[labels props]|]; [|done].
  apply andb_prop in Hall as [[H1 H2]%andb_prop H3].
  apply bool_decide_eq_true_1 in H1, H2, H3. subst props.
  f_equal. f_equal. destruct labels as [sh dt]. simpl in H1, H2. by subst.
Qed.

Lemma detect_eddies_single_block_witness :
  detect_eddies (one_file "sla" (block_grid 3 4)) "f.nc" (Num (Q2Qc (5 # 100))) 5
  = Ok (block_labels 3 4, block_props 3 4).
Proof.
  apply (detect_eddies_single_block _ _ {[ "sla" := block_grid 3 4 ]});
    [reflexivity|reflexivity|lia|lia].
Defined.

(** ** Missing variables *)

(** C2, as the code has it: when the variable is absent, each function
    stops at the lookup, before any computation, with the [KeyError]
    that the dataset raises for the name; there is no error of the
    function's own. *)
Theorem missing_variable_raises_key_error fs path ds :
  fs !! path = Some ds ->
  (ds !! "sla" = None ->
   forall thr ms, detect_eddies fs path thr ms = Raise (KeyError "sla"))
  /\ (ds !! "chlorophyll" = None ->
      forall clim,
        calculate_chlorophyll_anomaly fs path clim = Raise (KeyError "chlorophyll")).
Proof.
  intros Hfs. split; intros Hds; intros.
  - unfold detect_eddies, open_dataset, getitem.
    rewrite Hfs. cbn [bind]. by rewrite Hds.
  - unfold calculate_chlorophyll_anomaly, open_dataset, getitem.
    rewrite Hfs. cbn [bind]. by rewrite Hds.
Qed.

Lemma missing_variable_raises_key_error_witness :
  detect_eddies {[ "f.nc" := ∅ ]} "f.nc" (Num 0%Qc) 5 = Raise (KeyError "sla")
  /\ calculate_chlorophyll_anomaly {[ "f.nc" := ∅ ]} "f.nc" None
     = Raise (KeyError "chlorophyll").
Proof.
  assert (Hfs : ({[ "f.nc" := ∅ ]} : FileSystem) !! "f.nc" = Some ∅)
    by reflexivity.
  destruct (missing_variable_raises_key_error _ _ _ Hfs) as [Hsla Hchl].
  split; [apply Hsla|apply Hchl]; reflexivity.
Defined.

(** C2, as stated, fails: on a dataset without variables the error that
    reaches the caller is the lookup error of the dataset itself. *)
Lemma missing_variable_error_is_lookup_error :
  ({[ "f.nc" := ∅ ]} : FileSystem) !! "f.nc" = Some ∅
  /\ (∅ : Dataset) !! "sla" = None
  /\ (∅ : Dataset) !! "chlorophyll" = None
  /\ ~ (exists e,
          detect_eddies {[ "f.nc" := ∅ ]} "f.nc" (Num (Q2Qc (5 # 100))) 5 = Raise e
          /\ is_lookup_error e = false)
  /\ ~ (exists e,
          calculate_chlorophyll_anomaly {[ "f.nc" := ∅ ]} "f.nc" None = Raise e
          /\ is_lookup_error e = false).
Proof.
  split_and!; try reflexivity.
  - intros (e & He & Hl). vm_compute in He. by simplify_eq.
  - intros (e & He & Hl). vm_compute in He. by simplify_eq.
Qed.

(** ** correlate_eddies_chlorophyll *)

(** C8: whatever the label map and the anomaly field, the correlator
    prints its notice and returns correlation 0.0 with no statistics. *)
Theorem correlate_eddies_chlorophyll_neutral eddy_labels chl_anomaly stdout :
  correlate_eddies_chlorophyll eddy_labels chl_anomaly stdout
  = ((Num 0%Qc, ∅), stdout ++ [not_implemented_msg]).
Proof. reflexivity. Qed.

(** ** calculate_chlorophyll_anomaly without a time dimension *)

Lemma dim_size_None dims dim :
  dim_size dims dim = None <-> dim ∉ dim_names dims.
Proof.
  unfold dim_names. induction dims as [|[x n] dims IH]; simpl.
  - split; [intros _ ?%elem_of_nil; done|done].
  - rewrite not_elem_of_cons. case_decide as Hx.
    + split; [done|]. by intros [? _].
    + rewrite IH. split; [by intros ?; split|by intros [_ ?]].
Qed.

Lemma calculate_chlorophyll_anomaly_run fs path ds chl clim :
  fs !! path = Some ds -> ds !! "chlorophyll" = Some chl ->
  calculate_chlorophyll_anomaly fs path clim
  = bind (match clim with
          | None => da_mean chl "time"
          | Some c => Ok c
          end) (da_sub chl).
Proof.
  intros Hfs Hds. unfold calculate_chlorophyll_anomaly, open_dataset, getitem.
  rewrite Hfs. cbn [bind]. by rewrite Hds.
Qed.

(** C10: without a time dimension the temporal mean cannot be taken and
    the call without baseline raises; with a baseline supplied the mean
    is not taken, that error cannot occur, and any baseline that
    broadcasts against the field gives an anomaly. *)
Theorem anomaly_needs_time_or_baseline fs path ds chl :
  fs !! path = Some ds -> ds !! "chlorophyll" = Some chl ->
  "time" ∉ dim_names (da_dims chl) ->
  calculate_chlorophyll_anomaly fs path None = Raise (ValueError no_dim_msg)
  /\ (forall baseline,
        calculate_chlorophyll_anomaly fs path (Some baseline)
        <> Raise (ValueError no_dim_msg))
  /\ (forall baseline,
        compatible (da_dims chl) (da_dims baseline) = true ->
        exists anomaly,
          calculate_chlorophyll_anomaly fs path (Some baseline) = Ok anomaly).
Proof.
  intros Hfs Hds Ht. split_and!.
  - rewrite (calculate_chlorophyll_anomaly_run _ _ _ _ _ Hfs Hds).
    unfold da_mean. apply dim_size_None in Ht. by rewrite Ht.
  - intros baseline.
    rewrite (calculate_chlorophyll_anomaly_run _ _ _ _ _ Hfs Hds).
    cbn [bind]. unfold da_sub. by destruct (compatible _ _).
  - intros baseline Hc.
    rewrite (calculate_chlorophyll_anomaly_run _ _ _ _ _ Hfs Hds).
    cbn [bind]. unfold da_sub. rewrite Hc. eauto.
Qed.

Lemma anomaly_needs_time_or_baseline_witness :
  calculate_chlorophyll_anomaly (one_file "chlorophyll" small_field) "f.nc" None
  = Raise (ValueError no_dim_msg)
  /\ (forall baseline,
        calculate_chlorophyll_anomaly (one_file "chlorophyll" small_field) "f.nc"
          (Some baseline)
        <> Raise (ValueError no_dim_msg))
  /\ (forall baseline,
        compatible (da_dims small_field) (da_dims baseline) = true ->
        exists anomaly,
          calculate_chlorophyll_anomaly (one_file "chlorophyll" small_field) "f.nc"
            (Some baseline) = Ok anomaly).
Proof.
  apply (anomaly_needs_time_or_baseline _ _ {[ "chlorophyll" := small_field ]});
    [reflexivity|reflexivity|].
  unfold dim_names. simpl. rewrite !not_elem_of_cons.
  split_and!; [done|done|]. apply not_elem_of_nil.
Defined.

(** ** Named multi-indices *)

Section Indices.
Implicit Types (dims : list (string * nat)) (ix : index).

Lemma ravel_ext dims ix ix' :
  (forall x, x ∈ dim_names dims -> ix x = ix' x) ->
  ravel dims ix = ravel dims ix'.
Proof.
  unfold dim_names. induction dims as [|[x n] dims IH]; intros Hx; [done|].
  simpl. rewrite (Hx x) by (simpl; left).
  rewrite IH; [done|]. intros y Hy. apply Hx. simpl. by right.
Qed.

Lemma in_range_cons x n dims ix :
  in_range ((x, n) :: dims) ix <-> ix x < n /\ in_range dims ix.
Proof.
  unfold in_range. split.
  - intros H. split; [apply H; left|]. intros y m Hy. apply H. by right.
  - intros [Hx H] y m [?|Hy]%elem_of_cons; [by simplify_eq|by apply H].
Qed.

Lemma size_of_cons x n dims :
  size_of (dim_sizes ((x, n) :: dims)) = n * size_of (dim_sizes dims).
Proof. done. Qed.

Lemma names_cons x n dims : dim_names ((x, n) :: dims) = x :: dim_names dims.
Proof. done. Qed.

Lemma ravel_lt dims ix :
  in_range dims ix -> ravel dims ix < size_of (dim_sizes dims).
Proof.
  induction dims as [|[x n] dims IH].
  { intros _. simpl. lia. }
  intros [Hx Hr]%in_range_cons. specialize (IH Hr).
  rewrite size_of_cons. cbn [ravel].
  assert (S (ix x) * size_of (dim_sizes dims) <= n * size_of (dim_sizes dims))
    by (apply Nat.mul_le_mono_r; lia).
  lia.
Qed.

Lemma unravel_ravel dims ix x :
  NoDup (dim_names dims) -> in_range dims ix -> x ∈ dim_names dims ->
  unravel dims (ravel dims ix) x = ix x.
Proof.
  induction dims as [|[y n] dims IH].
  { by intros _ _ ?%elem_of_nil. }
  rewrite names_cons. cbn [ravel unravel].
  intros [Hy Hnd]%list.NoDup_cons [Hiy Hr]%in_range_cons Hx.
  pose proof (ravel_lt dims ix Hr) as Hlt.
  set (s := size_of (dim_sizes dims)) in *.
  case_decide as Hxy.
  - subst x. rewrite Nat.div_add_l by lia. rewrite Nat.div_small by done. lia.
  - apply elem_of_cons in Hx as [?|Hx]; [done|].
    rewrite Nat.add_comm, Nat.Div0.mod_add, Nat.mod_small by done.
    by apply IH.
Qed.

Lemma unravel_in_range dims k :
  NoDup (dim_names dims) -> k < size_of (dim_sizes dims) ->
  in_range dims (unravel dims k).
Proof.
  revert k. induction dims as [|[y n] dims IH]; intros k.
  { intros _ _ x m ?%elem_of_nil. done. }
  rewrite names_cons, size_of_cons. cbn [unravel].
  intros [Hy Hnd]%list.NoDup_cons Hk.
  set (s := size_of (dim_sizes dims)) in *.
  assert (0 < s) by (destruct s; lia).
  apply in_range_cons. split.
  - rewrite decide_True by done. apply Nat.Div0.div_lt_upper_bound. lia.
  - intros x m Hx. rewrite decide_False.
    + apply IH; [done| |done]. by apply Nat.mod_upper_bound; lia.
    + intros ->. apply Hy. apply list_elem_of_fmap. by exists (y, m).
Qed.

Lemma ravel_unravel dims k :
  NoDup (dim_names dims) -> k < size_of (dim_sizes dims) ->
  ravel dims (unravel dims k) = k.
Proof.
  revert k. induction dims as [|[y n] dims IH]; intros k.
  { intros _ Hk. simpl in *. lia. }
  rewrite names_cons, size_of_cons. cbn [ravel unravel].
  intros [Hy Hnd]%list.NoDup_cons Hk.
  set (s := size_of (dim_sizes dims)) in *.
  assert (0 < s) by (destruct s; lia).
  rewrite decide_True by done.
  rewrite (ravel_ext dims _ (unravel dims (k mod s))).
  - rewrite IH; [|done|by apply Nat.mod_upper_bound; lia].
    rewrite (Nat.div_mod_eq k s) at 3. lia.
  - intros x Hx. rewrite decide_False; [done|]. by intros ->.
Qed.

Lemma dim_size_Some dims x n :
  NoDup (dim_names dims) -> (x, n) ∈ dims -> dim_size dims x = Some n.
Proof.
  unfold dim_names. induction dims as [|[y m] dims IH]; simpl.
  { by intros _ ?%elem_of_nil. }
  intros [Hy Hnd]%list.NoDup_cons [?|Hx]%elem_of_cons.
  - simplify_eq. by rewrite decide_True.
  - rewrite decide_False; [by apply IH|].
    intros ->. apply Hy. apply list_elem_of_fmap. by exists (x, n).
Qed.

Lemma dim_size_elem dims x n :
  dim_size dims x = Some n -> (x, n) ∈ dims.
Proof.
  induction dims as [|[y m] dims IH]; simpl; [done|].
  case_decide; intros ?; simplify_eq; [by left|right; by apply IH].
Qed.

(** Operands whose dimensions are among those of the left one, with the
    same sizes, broadcast without a new dimension. *)
Lemma broadcast_within da db :
  NoDup (dim_names da) -> db ⊆ da ->
  compatible da db = true
  /\ da ++ filter (fun d => d.1 ∉ dim_names da) db = da.
Proof.
  intros Hnd Hsub. split.
  - unfold compatible. apply forallb_forall. intros [x n] Hx%list_elem_of_In.
    simpl. rewrite (dim_size_Some da x n); [apply Nat.eqb_refl|done|by apply Hsub].
  - assert (filter (fun d => d.1 ∉ dim_names da) db = []) as ->;
      [|apply app_nil_r].
    induction db as [|[x n] db IH]; [done|].
    rewrite filter_cons. rewrite decide_False.
    + apply IH. intros d Hd. apply Hsub. by right.
    + intros Hx. apply Hx. unfold dim_names. apply list_elem_of_fmap.
      exists (x, n). split; [done|]. apply Hsub. by left.
Qed.
End Indices.

(** ** calculate_chlorophyll_anomaly with a baseline *)

Lemma wf_DataArray_spec a :
  wf_DataArray a = true
  <-> NoDup (dim_names (da_dims a))
      /\ length (da_data a) = size_of (da_shape a).
Proof.
  unfold wf_DataArray.
  rewrite andb_true_iff, bool_decide_eq_true, Nat.eqb_eq. done.
Qed.






(** ** calculate_chlorophyll_anomaly on a field constant over time *)


Lemma Qc_of_nat_pos n : 0 < n -> Qc_of_nat n <> 0%Qc.
Proof.
  intros Hn He. unfold Qc_of_nat in He.
  rewrite <- Z2Qc_inj_0 in He. apply Z2Qc_inj in He. lia.
Qed.







Lemma NoDup_names_filter (P : string * nat -> Prop) `{!forall d, Decision (P d)}
    (dims : list (string * nat)) :
  NoDup (dim_names dims) -> NoDup (dim_names (filter P dims)).
Proof.
  unfold dim_names. induction dims as [|[x n] dims IH]; [done|].
  rewrite fmap_cons. intros [Hx Hnd]%list.NoDup_cons. rewrite filter_cons.
  case_decide; [|by apply IH]. rewrite fmap_cons. apply list.NoDup_cons.
  split; [|by apply IH]. intros Hin. apply Hx.
  apply list_elem_of_fmap in Hin as (d & -> & Hd%list_elem_of_filter).
  apply list_elem_of_fmap. exists d. by destruct Hd.
Qed.






(** * Further properties of [detect_eddies] *)

Lemma filtered_lookup mask labeled n ms k :
  map (fun l =>
         if bool_decide
              (l ∈ map S (np_where (valid_of (sizes_of mask labeled n) ms)))
         then l else 0)
      (nd_data labeled) !! k
  = (fun l => if decide (survives mask labeled n ms l) then l else 0)
      <$> nd_data labeled !! k.
Proof.
  change (map ?f) with (fmap (M:=list) f). rewrite list_lookup_fmap.
  destruct (nd_data labeled !! k) as [l|]; [|done]. simpl. f_equal.
  case_bool_decide as Hv; case_decide as Hs; try done.
  - by apply valid_labels_spec in Hv.
  - by apply valid_labels_spec in Hs.
Qed.

(** A cell of the mask is a cell whose value exceeds the threshold. *)
Lemma mask_of_lookup sla thr k :
  nd_data (mask_of sla thr) !! k = Some true
  <-> exists q t, da_data sla !! k = Some (Num q) /\ thr = Num t /\ (t < q)%Qc.
Proof.
  simpl. change (map ?f) with (fmap (M:=list) f). rewrite list_lookup_fmap.
  split.
  - destruct (da_data sla !! k) as [[|q]|]; [done| |done].
    destruct thr as [|t]; [done|]. simpl. intros Hgt. simplify_eq.
    apply bool_decide_eq_true_1 in Hgt. eauto.
  - intros (q & t & -> & -> & Hlt). simpl. f_equal.
    by apply bool_decide_eq_true_2.
Qed.


(** X2: a cell with a label holds a value above the threshold, and its
    label is a key of the statistics. *)
Theorem detect_eddies_labelled_cells_exceed fs path thr ms ds sla :
  fs !! path = Some ds -> ds !! "sla" = Some sla ->
  exists labels props,
    detect_eddies fs path thr ms = Ok (labels, props)
    /\ forall k l, nd_data labels !! k = Some l -> l <> 0 ->
         is_Some (props !! l)
         /\ exists q t, da_data sla !! k = Some (Num q) /\ thr = Num t /\ (t < q)%Qc.
Proof.
  intros Hfs Hds.
  destruct (detect_eddies_run fs path thr ms ds sla Hfs Hds)
    as (labeled & n & Hlab & ->).
  pose proof (label_spec _ _ _ Hlab) as (_ & _ & Hmask & _).
  eexists _, _. split; [done|]. cbn [nd_data].
  intros k l Hk Hl. rewrite filtered_lookup in Hk.
  apply fmap_Some in Hk as (l' & Hl' & ->).
  case_decide as Hs; [|done]. split.
  - rewrite props_lookup. rewrite decide_True by done. eauto.
  - apply mask_of_lookup. by apply (Hmask k l').
Qed.

Lemma detect_eddies_labelled_cells_exceed_witness :
  exists labels props,
    detect_eddies (one_file "sla" small_field) "f.nc" (Num 0%Qc) 1 = Ok (labels, props)
    /\ forall k l, nd_data labels !! k = Some l -> l <> 0 ->
         is_Some (props !! l)
         /\ exists q t, da_data small_field !! k = Some (Num q)
                        /\ Num 0%Qc = Num t /\ (t < q)%Qc.
Proof.
  apply (detect_eddies_labelled_cells_exceed
           (one_file "sla" small_field) "f.nc" (Num 0%Qc) 1
           {[ "sla" := small_field ]} small_field); reflexivity.
Defined.

(** Every region found by [label] passes a minimum size of at most 1. *)
Lemma survives_small sla thr labeled n ms i :
  label (mask_of sla thr) = (labeled, n) -> (ms ≤ 1)%Z -> 1 <= i <= n ->
  survives (mask_of sla thr) labeled n ms i.
Proof.
  intros Hlab Hms Hi. split; [done|].
  pose proof (label_spec _ _ _ Hlab) as (_ & Hlen & Hmask & _ & Hused).
  rewrite sum_label_count; [|lia|done|].
  - specialize (Hused i Hi). apply cell_count_pos in Hused. lia.
  - intros k l Hk Hl. by apply (Hmask k l).
Qed.

(** X3: with a minimum size of at most 1 nothing is filtered: the label
    map is the labelling itself, a cell has a label exactly when its
    value exceeds the threshold, and the keys are [1 .. num_features]. *)
Theorem detect_eddies_no_filter fs path thr ms ds sla :
  fs !! path = Some ds -> ds !! "sla" = Some sla -> (ms ≤ 1)%Z ->
  exists labels props n,
    detect_eddies fs path thr ms = Ok (labels, props)
    /\ label (mask_of sla thr) = (labels, n)
    /\ (forall k, (exists l, nd_data labels !! k = Some l /\ l <> 0)
                  <-> (exists q t, da_data sla !! k = Some (Num q)
                                   /\ thr = Num t /\ (t < q)%Qc))
    /\ (forall i, is_Some (props !! i) <-> 1 <= i <= n).
Proof.
  intros Hfs Hds Hms.
  destruct (detect_eddies_run fs path thr ms ds sla Hfs Hds)
    as (labeled & n & Hlab & ->).
  pose proof (label_spec _ _ _ Hlab) as (_ & Hlen & Hmask & Hbound & _).
  exists labeled, (foldl (eddy_step sla labeled (sizes_of (mask_of sla thr) labeled n)
                    (valid_of (sizes_of (mask_of sla thr) labeled n) ms))
                 ∅ (seq 1 n)), n.
  split_and!.
  - do 2 f_equal. destruct labeled as [sh dt]. cbn [nd_shape nd_data] in *.
    f_equal. apply list_eq. intros k.
    rewrite (filtered_lookup (mask_of sla thr) (mk_ndarray sh dt)).
    cbn [nd_data]. destruct (dt !! k) as [l|] eqn:Hk; [|done]. simpl. f_equal.
    case_decide as Hs; [done|]. destruct (decide (l = 0)) as [->|Hl]; [done|].
    exfalso. apply Hs. apply survives_small; [done..|].
    specialize (Hbound k l Hk). lia.
  - done.
  - intros k. rewrite <- mask_of_lookup. split.
    + intros (l & Hk & Hl). by apply (Hmask k l).
    + intros Hm. pose proof (lookup_lt_Some _ _ _ Hm) as Hlt.
      rewrite <- Hlen in Hlt.
      destruct (lookup_lt_is_Some_2 _ _ Hlt) as [l Hk].
      exists l. split; [done|]. by apply (Hmask k l).
  - intros i. rewrite props_lookup. case_decide as Hs.
    + split; [by destruct Hs|eauto].
    + split; [by intros [? ?]|]. intros Hi. exfalso. apply Hs.
      by apply survives_small.
Qed.

Lemma detect_eddies_no_filter_witness :
  exists labels props n,
    detect_eddies (one_file "sla" small_field) "f.nc" (Num 0%Qc) 0 = Ok (labels, props)
    /\ label (mask_of small_field (Num 0%Qc)) = (labels, n)
    /\ (forall k, (exists l, nd_data labels !! k = Some l /\ l <> 0)
                  <-> (exists q t, da_data small_field !! k = Some (Num q)
                                   /\ Num 0%Qc = Num t /\ (t < q)%Qc))
    /\ (forall i, is_Some (props !! i) <-> 1 <= i <= n).
Proof.
  apply (detect_eddies_no_filter
           (one_file "sla" small_field) "f.nc" (Num 0%Qc) 0
           {[ "sla" := small_field ]} small_field); [reflexivity..|lia].
Defined.

(** X4: raising the minimum size only removes: the labels that are
    left keep their number and their cells, and their records are the
    same records. *)
Theorem detect_eddies_filter_stable fs path thr m1 m2 ds sla :
  fs !! path = Some ds -> ds !! "sla" = Some sla -> (m1 ≤ m2)%Z ->
  exists l1 p1 l2 p2,
    detect_eddies fs path thr m1 = Ok (l1, p1)
    /\ detect_eddies fs path thr m2 = Ok (l2, p2)
    /\ p2 ⊆ p1
    /\ nd_shape l2 = nd_shape l1
    /\ forall k, nd_data l2 !! k = nd_data l1 !! k
                 \/ (nd_data l2 !! k = Some 0 /\ is_Some (nd_data l1 !! k)).
Proof.
  intros Hfs Hds Hm.
  destruct (detect_eddies_run fs path thr m1 ds sla Hfs Hds)
    as (labeled & n & Hlab & ->).
  destruct (detect_eddies_run fs path thr m2 ds sla Hfs Hds)
    as (labeled2 & n2 & Hlab2 & ->).
  rewrite Hlab in Hlab2. simplify_eq.
  eexists _, _, _, _. split; [done|]. split; [done|]. cbn [nd_shape nd_data].
  split_and!.
  - apply map_subseteq_spec. intros i p. rewrite !props_lookup.
    case_decide as Hs; [|done]. intros Hp.
    by rewrite decide_True by (by eapply survives_mono).
  - done.
  - intros k. rewrite !filtered_lookup.
    destruct (nd_data labeled2 !! k) as [l|]; [|by left]. simpl.
    destruct (decide (survives _ _ _ m2 l)) as [Hs|Hs].
    + left. by rewrite decide_True by (by eapply survives_mono).
    + right. eauto.
Qed.

Lemma detect_eddies_filter_stable_witness :
  exists l1 p1 l2 p2,
    detect_eddies (one_file "sla" small_field) "f.nc" (Num 0%Qc) 1 = Ok (l1, p1)
    /\ detect_eddies (one_file "sla" small_field) "f.nc" (Num 0%Qc) 2 = Ok (l2, p2)
    /\ p2 ⊆ p1
    /\ nd_shape l2 = nd_shape l1
    /\ forall k, nd_data l2 !! k = nd_data l1 !! k
                 \/ (nd_data l2 !! k = Some 0 /\ is_Some (nd_data l1 !! k)).
Proof.
  apply (detect_eddies_filter_stable
           (one_file "sla" small_field) "f.nc" (Num 0%Qc) 1 2
           {[ "sla" := small_field ]} small_field); [reflexivity..|lia].
Defined.

(** ** Regions of the label map *)

Lemma labeled_lookup sla thr labeled n k :
  label (mask_of sla thr) = (labeled, n) -> k < length (da_data sla) ->
  exists l, nd_data labeled !! k = Some l
            /\ (l <> 0 <-> nd_data (mask_of sla thr) !! k = Some true).
Proof.
  intros Hlab Hk.
  pose proof (label_spec _ _ _ Hlab) as (_ & Hlen & Hmask & _).
  simpl in Hlen. rewrite length_map in Hlen.
  destruct (lookup_lt_is_Some_2 (nd_data labeled) k ltac:(lia)) as [l Hl].
  exists l. split; [done|]. by apply Hmask.
Qed.

(** X5: two cells next to each other along an axis whose values both
    exceed the threshold carry the same label in the label map. *)
Theorem detect_eddies_adjacent_cells_share_label fs path thr ms ds sla :
  fs !! path = Some ds -> ds !! "sla" = Some sla ->
  length (da_data sla) = size_of (da_shape sla) ->
  exists labels props,
    detect_eddies fs path thr ms = Ok (labels, props)
    /\ forall c j,
         j ∈ neighbours (da_shape sla) c ->
         gt (cell (da_data sla) c) thr = true ->
         gt (cell (da_data sla) j) thr = true ->
         exists l, nd_data labels !! c = Some l /\ nd_data labels !! j = Some l.
Proof.
  intros Hfs Hds Hsz.
  destruct (detect_eddies_run fs path thr ms ds sla Hfs Hds)
    as (labeled & n & Hlab & ->).
  assert (Hu : uniform (da_shape sla) (nd_data (mask_of sla thr)) (nd_data labeled)).
  { apply (label_uniform (mask_of sla thr) labeled n); [|done].
    simpl. by rewrite length_map. }
  assert (Hm : forall k, gt (cell (da_data sla) k) thr = true ->
                 nd_data (mask_of sla thr) !! k = Some true).
  { intros k Hk. simpl. change (map ?f) with (fmap (M:=list) f).
    rewrite list_lookup_fmap. unfold cell in Hk.
    destruct (da_data sla !! k) as [v|]; [simpl in *; by f_equal|done]. }
  eexists _, _. split; [done|]. cbn [nd_data].
  intros c j Hj Hc Hjm. apply Hm in Hc, Hjm.
  pose proof (lookup_lt_Some _ _ _ Hc) as Hlt. simpl in Hlt.
  rewrite length_map in Hlt.
  destruct (labeled_lookup sla thr labeled n c Hlab Hlt) as (l & Hl & Hl0).
  apply Hl0 in Hc. specialize (Hu c j l Hl Hc Hj Hjm).
  rewrite !filtered_lookup, Hl, Hu. simpl. eauto.
Qed.

Lemma detect_eddies_adjacent_cells_share_label_witness :
  exists labels props,
    detect_eddies (one_file "sla" small_field) "f.nc" (Num 0%Qc) 1 = Ok (labels, props)
    /\ forall c j,
         j ∈ neighbours (da_shape small_field) c ->
         gt (cell (da_data small_field) c) (Num 0%Qc) = true ->
         gt (cell (da_data small_field) j) (Num 0%Qc) = true ->
         exists l, nd_data labels !! c = Some l /\ nd_data labels !! j = Some l.
Proof.
  apply (detect_eddies_adjacent_cells_share_label
           (one_file "sla" small_field) "f.nc" (Num 0%Qc) 1
           {[ "sla" := small_field ]} small_field); reflexivity.
Defined.

(** X6: the cells that carry one label are connected: all of them are
    reached from one cell by steps between neighbours through cells
    whose value exceeds the threshold. *)
Theorem detect_eddies_regions_connected fs path thr ms ds sla :
  fs !! path = Some ds -> ds !! "sla" = Some sla ->
  exists labels props,
    detect_eddies fs path thr ms = Ok (labels, props)
    /\ forall l, l <> 0 ->
         exists root, forall c,
           nd_data labels !! c = Some l ->
           reach (da_shape sla) (map (fun v => gt v thr) (da_data sla)) root c.
Proof.
  intros Hfs Hds.
  destruct (detect_eddies_run fs path thr ms ds sla Hfs Hds)
    as (labeled & n & Hlab & ->).
  pose proof (label_rooted _ _ _ Hlab) as Hr. simpl in Hr.
  eexists _, _. split; [done|]. cbn [nd_data].
  intros l Hl. destruct (Hr l Hl) as [root Hroot]. exists root.
  intros c Hc. rewrite filtered_lookup in Hc.
  apply fmap_Some in Hc as (l' & Hl' & Hc). apply Hroot.
  case_decide; [by subst|]. by subst.
Qed.

Lemma detect_eddies_regions_connected_witness :
  exists labels props,
    detect_eddies (one_file "sla" small_field) "f.nc" (Num 0%Qc) 1 = Ok (labels, props)
    /\ forall l, l <> 0 ->
         exists root, forall c,
           nd_data labels !! c = Some l ->
           reach (da_shape small_field)
                 (map (fun v => gt v (Num 0%Qc)) (da_data small_field)) root c.
Proof.
  apply (detect_eddies_regions_connected
           (one_file "sla" small_field) "f.nc" (Num 0%Qc) 1
           {[ "sla" := small_field ]} small_field); reflexivity.
Defined.

(** ** Degenerate thresholds and minimum sizes *)






(** ** Bounds on the statistics *)

Lemma Qc_of_nat_gt_0 n : 0 < n -> (0 < Qc_of_nat n)%Qc.
Proof.
  intros Hn. unfold Qc_of_nat. rewrite <- Z2Qc_inj_0.
  apply (proj1 (Z2Qc_inj_lt _ _)). lia.
Qed.

Lemma Qc_div_mul_cancel (s d : Qc) : d <> 0%Qc -> (s / d * d)%Qc = s.
Proof. intros Hd. rewrite Qcmult_comm. by apply Qcmult_div_r. Qed.


Lemma Qc_mean_lt n (s t : Qc) :
  0 < n -> (s < t * Qc_of_nat n)%Qc -> (s / Qc_of_nat n < t)%Qc.
Proof.
  intros Hn Hlt. pose proof (Qc_of_nat_gt_0 n Hn) as Hpos.
  apply (Qcmult_lt_mono_pos_r _ _ (Qc_of_nat n) Hpos).
  rewrite Qc_div_mul_cancel; [done|]. by apply Qc_of_nat_pos.
Qed.

Lemma Qc_mean_nonneg n (s : Qc) :
  0 < n -> (0 <= s)%Qc -> (0 <= s / Qc_of_nat n)%Qc.
Proof.
  intros Hn Hs. pose proof (Qc_of_nat_gt_0 n Hn) as Hpos.
  apply (Qcmult_le_mono_pos_r _ _ (Qc_of_nat n) Hpos).
  rewrite Qc_div_mul_cancel by (by apply Qc_of_nat_pos).
  by rewrite Qcmult_0_l.
Qed.






Lemma length_unravel_index shape k : length (unravel_index shape k) = length shape.
Proof.
  revert k. induction shape as [|n shape IH]; intros k; [done|].
  simpl. by rewrite IH.
Qed.

Lemma unravel_index_lt shape k a n :
  k < size_of shape -> shape !! a = Some n ->
  nth a (unravel_index shape k) 0 < n.
Proof.
  revert k a. induction shape as [|m shape IH]; intros k a Hk Ha; [done|].
  change (size_of (m :: shape)) with (m * size_of shape) in Hk.
  assert (0 < size_of shape) by (destruct (size_of shape); lia).
  destruct a as [|a]; simpl in *.
  - simplify_eq. apply Nat.Div0.div_lt_upper_bound. lia.
  - apply IH; [|done]. apply Nat.mod_upper_bound. lia.
Qed.

Lemma sum_lt_bound ns n :
  ns <> [] -> (forall x, x ∈ ns -> x < n) -> foldr plus 0 ns < n * length ns.
Proof.
  destruct ns as [|x0 ns]; [done|]. intros _ Hall.
  assert (Hle : foldr plus 0 ns <= n * length ns).
  { assert (Hall' : forall x, x ∈ ns -> x < n) by (intros; apply Hall; by right).
    clear Hall. induction ns as [|x ns IH]; simpl; [lia|].
    assert (x < n) by (apply Hall'; by left).
    assert (foldr plus 0 ns <= n * length ns)
      by (apply IH; intros; apply Hall'; by right).
    lia. }
  assert (x0 < n) by (apply Hall; by left). simpl. lia.
Qed.

(** The mean of coordinates below [n] is a defined value in [0, n). *)
Lemma mean_nat_bound ns n :
  ns <> [] -> (forall x, x ∈ ns -> x < n) ->
  exists q, mean_nat ns = Num q /\ (0 <= q)%Qc /\ (q < Qc_of_nat n)%Qc.
Proof.
  intros Hne Hall. pose proof (sum_lt_bound ns n Hne Hall) as Hsum.
  destruct ns as [|x ns]; [done|]. eexists. split; [done|].
  assert (Hlen : 0 < length (x :: ns)) by (simpl; lia).
  split.
  - apply Qc_mean_nonneg; [done|]. unfold Qc_of_nat.
    rewrite <- Z2Qc_inj_0. apply (proj1 (Z2Qc_inj_le _ _)). lia.
  - apply Qc_mean_lt; [done|]. unfold Qc_of_nat.
    rewrite <- Z2Qc_inj_mul. apply (proj1 (Z2Qc_inj_lt _ _)). lia.
Qed.

(** X10: every record describes a region of the grid: its area is at
    least one cell, and its centroid has one defined coordinate per
    axis, within the extent of the axis. *)
Theorem detect_eddies_record_within_grid fs path thr ms ds sla :
  fs !! path = Some ds -> ds !! "sla" = Some sla ->
  length (da_data sla) = size_of (da_shape sla) ->
  exists labels props,
    detect_eddies fs path thr ms = Ok (labels, props)
    /\ forall i p, props !! i = Some p ->
         1 <= area p
         /\ length (centroid p) = length (da_shape sla)
         /\ forall a n, da_shape sla !! a = Some n ->
              exists q, centroid p !! a = Some (Num q)
                        /\ (0 <= q)%Qc /\ (q < Qc_of_nat n)%Qc.
Proof.
  intros Hfs Hds Hsz.
  destruct (detect_eddies_run fs path thr ms ds sla Hfs Hds)
    as (labeled & n & Hlab & ->).
  pose proof (label_spec _ _ _ Hlab) as (Hshape & Hlen & _).
  simpl in Hshape, Hlen. rewrite length_map in Hlen.
  eexists _, _. split; [done|].
  intros i p Hp. rewrite props_lookup in Hp.
  case_decide as Hs; [|done]. simplify_eq.
  destruct (survivor_count _ _ _ _ _ _ Hlab Hs) as (Hsum & _ & Hpos).
  split_and!.
  - rewrite (props_area _ _ _ _ ms) by done. lia.
  - unfold props_of, mean_axis0. cbn [centroid].
    by rewrite length_map, length_seq, Hshape.
  - intros a m Ha. unfold props_of, mean_axis0, np_argwhere. cbn [centroid].
    rewrite Hshape. fold (region_cells (nd_data labeled) i).
    change (map ?f) with (fmap (M:=list) f).
    rewrite list_lookup_fmap, lookup_seq_lt by by eapply lookup_lt_Some.
    cbn [fmap option_fmap option_map]. rewrite Nat.add_0_l.
    rewrite <- length_region_cells in Hpos.
    destruct (mean_nat_bound
                ((fun p => nth a p 0) <$>
                   (unravel_index (da_shape sla) <$> region_cells (nd_data labeled) i)) m)
      as (q & Hq & Hq0 & Hqm).
    + intros Hnil. apply (f_equal length) in Hnil.
      rewrite !length_fmap in Hnil. simpl in Hnil. lia.
    + intros x Hx. apply list_elem_of_fmap in Hx as (pos & -> & Hpos').
      apply list_elem_of_fmap in Hpos' as (c & -> & Hc).
      apply unravel_index_lt; [|done].
      unfold region_cells in Hc. apply elem_of_np_where in Hc.
      apply lookup_lt_Some in Hc. unfold eq_label in Hc.
      rewrite length_map in Hc. lia.
    + exists q. split; [|done]. f_equal. exact Hq.
Qed.

Lemma detect_eddies_record_within_grid_witness :
  exists labels props,
    detect_eddies (one_file "sla" small_field) "f.nc" (Num 0%Qc) 1 = Ok (labels, props)
    /\ forall i p, props !! i = Some p ->
         1 <= area p
         /\ length (centroid p) = length (da_shape small_field)
         /\ forall a n, da_shape small_field !! a = Some n ->
              exists q, centroid p !! a = Some (Num q)
                        /\ (0 <= q)%Qc /\ (q < Qc_of_nat n)%Qc.
Proof.
  apply (detect_eddies_record_within_grid
           (one_file "sla" small_field) "f.nc" (Num 0%Qc) 1
           {[ "sla" := small_field ]} small_field); reflexivity.
Defined.

(** * Further properties of [calculate_chlorophyll_anomaly] *)

Lemma da_data_at (a : DataArray) ix v :
  da_data a !! ravel (da_dims a) ix = Some v -> da_at a ix = v.
Proof. intros H. unfold da_at. by rewrite H. Qed.

(** Reading at the coordinates of a flat position, then going back. *)
Lemma da_at_ext (a : DataArray) ix ix' :
  (forall x, x ∈ dim_names (da_dims a) -> ix x = ix' x) ->
  da_at a ix = da_at a ix'.
Proof. intros H. unfold da_at. by rewrite (ravel_ext _ ix ix'). Qed.

(** A baseline whose dimensions are dimensions of the left operand is
    subtracted at the coordinates it shares with each cell. *)
Lemma da_sub_within a b :
  wf_DataArray a = true -> da_dims b ⊆ da_dims a ->
  exists r,
    da_sub a b = Ok r
    /\ da_dims r = da_dims a
    /\ length (da_data r) = length (da_data a)
    /\ forall ix, in_range (da_dims a) ix ->
         da_at r ix = vsub (da_at a ix) (da_at b ix).
Proof.
  intros [Hnd Hlen]%wf_DataArray_spec Hsub. unfold da_shape in Hlen.
  unfold da_sub.
  destruct (broadcast_within (da_dims a) (da_dims b)) as [-> ->]; [done..|].
  eexists. split; [done|]. cbn [da_dims da_data].
  split; [done|]. split; [by rewrite length_map, length_seq|].
  intros ix Hix. unfold da_at at 1. cbn [da_dims da_data].
  pose proof (ravel_lt _ _ Hix) as Hlt.
  change (map ?f) with (fmap (M:=list) f).
  rewrite list_lookup_fmap, lookup_seq_lt by done.
  cbn [fmap option_fmap option_map from_option id]. rewrite Nat.add_0_l.
  assert (Hagree : forall x, x ∈ dim_names (da_dims a) ->
            unravel (da_dims a) (ravel (da_dims a) ix) x = ix x)
    by (intros x Hx; by apply unravel_ravel).
  f_equal; apply da_at_ext; [done|].
  intros x Hx. apply Hagree. unfold dim_names in *.
  apply list_elem_of_fmap in Hx as (d & -> & Hd).
  apply list_elem_of_fmap. exists d. split; [done|]. by apply Hsub.
Qed.





(** The mean over a dimension, read at the coordinates of a cell, is
    the mean of the cells along that dimension. *)
Lemma da_mean_at chl dim n :
  wf_DataArray chl = true -> dim_size (da_dims chl) dim = Some n ->
  exists baseline,
    da_mean chl dim = Ok baseline
    /\ da_dims baseline = filter (fun d => d.1 <> dim) (da_dims chl)
    /\ length (da_data baseline) = size_of (da_shape baseline)
    /\ forall ix, in_range (da_dims chl) ix ->
         da_at baseline ix
         = nanmean (map (fun t => da_at chl (set_coord ix dim t)) (seq 0 n)).
Proof.
  intros [Hnd Hlen]%wf_DataArray_spec Hn. unfold da_mean. rewrite Hn.
  set (dims := da_dims chl) in *.
  set (rdims := filter (fun d => d.1 <> dim) dims).
  eexists. split; [done|]. split; [done|].
  split; [unfold da_shape; cbn [da_dims da_data]; by rewrite length_map, length_seq|].
  intros ix Hix. unfold da_at at 1. cbn [da_dims da_data].
  assert (Hrix : in_range rdims ix).
  { intros x m [_ Hx]%list_elem_of_filter. by apply Hix. }
  assert (Hrnd : NoDup (dim_names rdims)) by by apply NoDup_names_filter.
  change (map ?f) with (fmap (M:=list) f).
  rewrite list_lookup_fmap, lookup_seq_lt by by apply ravel_lt.
  cbn [fmap option_fmap option_map from_option id]. rewrite Nat.add_0_l.
  f_equal. apply list_fmap_ext. intros _ t _.
  apply da_at_ext. fold dims. intros x Hx. unfold set_coord.
  case_decide as Hxd; [done|].
  apply unravel_ravel; [done..|].
  unfold dim_names in *. apply list_elem_of_fmap in Hx as ([y m] & -> & Hy).
  apply list_elem_of_fmap. exists (y, m). split; [done|].
  by apply list_elem_of_filter.
Qed.

(** Without a baseline: the anomaly at a cell is the cell minus the
    mean of the cells along time. *)
Lemma anomaly_at chl T fs path ds :
  fs !! path = Some ds -> ds !! "chlorophyll" = Some chl ->
  wf_DataArray chl = true -> dim_size (da_dims chl) "time" = Some T ->
  exists anomaly,
    calculate_chlorophyll_anomaly fs path None = Ok anomaly
    /\ da_dims anomaly = da_dims chl
    /\ length (da_data anomaly) = length (da_data chl)
    /\ forall ix, in_range (da_dims chl) ix ->
         da_at anomaly ix
         = vsub (da_at chl ix)
                (nanmean (map (fun t => da_at chl (set_coord ix "time" t)) (seq 0 T))).
Proof.
  intros Hfs Hds Hwf HT.
  rewrite (calculate_chlorophyll_anomaly_run _ _ _ _ _ Hfs Hds).
  destruct (da_mean_at chl "time" T Hwf HT) as (baseline & -> & Hbd & _ & Hb).
  cbn [bind].
  destruct (da_sub_within chl baseline Hwf) as (r & -> & Hrd & Hrl & Hr).
  { rewrite Hbd. intros d [_ Hd]%list_elem_of_filter. done. }
  exists r. split; [done|]. split; [done|]. split; [done|].
  intros ix Hix. by rewrite Hr, Hb.
Qed.

Lemma nanmean_defined vs q : Num q ∈ vs -> exists m, nanmean vs = Num m.
Proof.
  intros Hq. unfold nanmean.
  assert (Hin : q ∈ vals vs).
  { unfold vals. apply list_elem_of_omap. by exists (Num q). }
  destruct (vals vs); [by apply elem_of_nil in Hin|eauto].
Qed.

(** X12: without a baseline, on a field with a time dimension the call
    succeeds, the anomaly has the dimensions of the field, and a cell
    of the anomaly is missing exactly where the field is missing. *)
Theorem anomaly_keeps_missing_cells fs path ds chl T :
  fs !! path = Some ds -> ds !! "chlorophyll" = Some chl ->
  wf_DataArray chl = true -> dim_size (da_dims chl) "time" = Some T ->
  exists anomaly,
    calculate_chlorophyll_anomaly fs path None = Ok anomaly
    /\ da_dims anomaly = da_dims chl
    /\ length (da_data anomaly) = length (da_data chl)
    /\ forall k v, da_data chl !! k = Some v ->
         exists w, da_data anomaly !! k = Some w /\ (w = NaN <-> v = NaN).
Proof.
  intros Hfs Hds Hwf HT.
  destruct (anomaly_at chl T fs path ds Hfs Hds Hwf HT)
    as (anomaly & -> & Hd & Hl & Hat).
  exists anomaly. split; [done|]. split; [done|]. split; [done|].
  intros k v Hk. pose proof (lookup_lt_Some _ _ _ Hk) as Hlt.
  destruct (lookup_lt_is_Some_2 (da_data anomaly) k ltac:(lia)) as [w Hw].
  exists w. split; [done|].
  pose proof Hwf as [Hnd Hlen]%wf_DataArray_spec. unfold da_shape in Hlen.
  set (ix := unravel (da_dims chl) k).
  assert (Hix : in_range (da_dims chl) ix) by (apply unravel_in_range; [done|lia]).
  assert (Hrk : ravel (da_dims chl) ix = k) by (apply ravel_unravel; [done|lia]).
  assert (Hcv : da_at chl ix = v) by (apply da_data_at; by rewrite Hrk).
  assert (Haw : da_at anomaly ix = w) by (apply da_data_at; by rewrite Hd, Hrk).
  specialize (Hat ix Hix). rewrite Haw, Hcv in Hat. subst w.
  destruct v as [|q]; [done|].
  destruct (nanmean_defined
              (map (fun t => da_at chl (set_coord ix "time" t)) (seq 0 T)) q)
    as [m ->]; [|done].
  change (map ?f) with (fmap (M:=list) f). apply list_elem_of_fmap.
  exists (ix "time"). split.
  - rewrite <- Hcv. apply da_at_ext. intros x _. unfold set_coord.
    by case_decide as Hx; [rewrite Hx|].
  - apply elem_of_seq. apply dim_size_elem in HT. specialize (Hix _ _ HT). lia.
Qed.

Lemma anomaly_keeps_missing_cells_witness :
  exists anomaly,
    calculate_chlorophyll_anomaly (one_file "chlorophyll" masked_field) "f.nc" None
    = Ok anomaly
    /\ da_dims anomaly = da_dims masked_field
    /\ length (da_data anomaly) = length (da_data masked_field)
    /\ forall k v, da_data masked_field !! k = Some v ->
         exists w, da_data anomaly !! k = Some w /\ (w = NaN <-> v = NaN).
Proof.
  apply (anomaly_keeps_missing_cells _ _ {[ "chlorophyll" := masked_field ]}
           masked_field 2); reflexivity.
Defined.

(** ** The anomaly has no temporal mean left *)







(** ** Failures and the shape of the result *)




Lemma da_sub_wf a b r :
  NoDup (dim_names (da_dims a)) -> NoDup (dim_names (da_dims b)) ->
  da_sub a b = Ok r -> wf_DataArray r = true.
Proof.
  intros Ha Hb. unfold da_sub. destruct (compatible _ _); [|done].
  intros Hr. simplify_eq. apply wf_DataArray_spec. cbn [da_dims da_data].
  split.
  - unfold dim_names. rewrite fmap_app. apply list.NoDup_app. split_and!.
    + done.
    + intros x Hx Hx'.
      apply list_elem_of_fmap in Hx' as (d & -> & [Hd _]%list_elem_of_filter).
      by apply Hd.
    + by apply NoDup_names_filter.
  - unfold da_shape. cbn [da_dims]. by rewrite length_map, length_seq.
Qed.

(** X15: whatever the baseline, an anomaly that is returned is a
    well-formed array: its dimension names are distinct and it has one
    cell per position of its shape. *)
Theorem anomaly_is_well_formed fs path ds chl clim anomaly :
  fs !! path = Some ds -> ds !! "chlorophyll" = Some chl ->
  wf_DataArray chl = true ->
  (forall b, clim = Some b -> wf_DataArray b = true) ->
  calculate_chlorophyll_anomaly fs path clim = Ok anomaly ->
  wf_DataArray anomaly = true.
Proof.
  intros Hfs Hds Hwf Hclim.
  rewrite (calculate_chlorophyll_anomaly_run _ _ _ _ _ Hfs Hds).
  pose proof Hwf as [Hnd _]%wf_DataArray_spec.
  destruct clim as [b|]; cbn [bind].
  - specialize (Hclim b eq_refl). apply wf_DataArray_spec in Hclim as [Hb _].
    by apply da_sub_wf.
  - destruct (dim_size (da_dims chl) "time") as [T|] eqn:HT.
    + destruct (da_mean_at chl "time" T Hwf HT) as (baseline & -> & Hbd & _).
      cbn [bind]. apply da_sub_wf; [done|].
      rewrite Hbd. by apply NoDup_names_filter.
    + unfold da_mean. by rewrite HT.
Qed.

Lemma anomaly_is_well_formed_witness :
  wf_DataArray
    (mk_DataArray [("time", 2); ("lat", 2)]
       (zip_with vsub (da_data squares_field) (da_data squares_field)))
  = true.
Proof.
  apply (anomaly_is_well_formed (one_file "chlorophyll" squares_field) "f.nc"
           {[ "chlorophyll" := squares_field ]} squares_field
           (Some squares_field)); [reflexivity|reflexivity|reflexivity| |].
  - intros b Hb. injection Hb as <-. reflexivity.
  - vm_compute. reflexivity.
Defined.


(** ** The areas add up to the labelled cells *)

Lemma sum_list_with_add {A} (f g : A -> nat) l :
  sum_list_with (fun x => f x + g x) l = sum_list_with f l + sum_list_with g l.
Proof. induction l as [|x l IH]; simpl; [done|]. rewrite IH. lia. Qed.

Lemma sum_list_with_ext {A} (f g : A -> nat) l :
  (forall x, x ∈ l -> f x = g x) -> sum_list_with f l = sum_list_with g l.
Proof.
  induction l as [|x l IH]; intros H; simpl; [done|].
  rewrite (H x) by (by left). rewrite IH; [done|]. intros y Hy. apply H. by right.
Qed.

Lemma sum_indicator l j n :
  sum_list_with (fun i => if decide (l = i) then 1 else 0) (seq j n)
  = if decide (j <= l < j + n) then 1 else 0.
Proof.
  revert j. induction n as [|n IH]; intros j; simpl.
  { case_decide; [lia|done]. }
  rewrite IH. repeat case_decide; lia.
Qed.

(** Counting the cells label by label counts the labelled cells. *)
Lemma cell_count_partition labels n :
  (forall k l, labels !! k = Some l -> l <= n) ->
  sum_list_with (fun i => cell_count i labels) (seq 1 n) = labelled_cells labels.
Proof.
  unfold labelled_cells, cell_count.
  induction labels as [|l labels IH]; intros Hb.
  { simpl. induction (seq 1 n) as [|? ? IH']; simpl; [done|]. by rewrite IH'. }
  rewrite filter_cons.
  rewrite (sum_list_with_ext _
             (fun i => (if decide (l = i) then 1 else 0)
                       + length (filter (fun l0 => l0 = i) labels))).
  2: { intros i _. rewrite filter_cons. by case_decide. }
  rewrite sum_list_with_add, sum_indicator, IH by (intros k; apply (Hb (S k))).
  specialize (Hb 0 l eq_refl).
  repeat case_decide; simpl; lia.
Qed.

Lemma foldl_eddy_step_totals sla labeled sizes valid idx props :
  NoDup idx -> (forall i, i ∈ idx -> props !! i = None) ->
  total_area (foldl (eddy_step sla labeled sizes valid) props idx)
  = total_area props
    + sum_list_with (fun i => if decide (valid !! (i - 1) = Some true)
                              then area (props_of sla labeled sizes i) else 0) idx.
Proof.
  revert props. induction idx as [|j idx IH]; intros props Hnd Hfresh.
  { simpl. lia. }
  apply list.NoDup_cons in Hnd as [Hj Hnd]. cbn [foldl sum_list_with].
  rewrite IH; [|done|].
  - unfold eddy_step. fold (props_of sla labeled sizes j).
    destruct (valid !! (j - 1)) as [[]|] eqn:Hv.
    + rewrite decide_True by done. unfold total_area.
      rewrite map_to_list_insert by (apply Hfresh; by left). simpl. lia.
    + rewrite decide_False by done. lia.
    + rewrite decide_False by done. lia.
  - intros i Hi. unfold eddy_step.
    assert (props !! i = None) by (apply Hfresh; by right).
    destruct (valid !! (j - 1)) as [[]|]; [|done..].
    rewrite lookup_insert_ne; [done|]. by intros ->.
Qed.

Lemma sum_list_with_ge {A} (f : A -> nat) c l :
  (forall x, x ∈ l -> c <= f x) -> c * length l <= sum_list_with f l.
Proof.
  induction l as [|x l IH]; intros H; simpl; [lia|].
  assert (c <= f x) by (apply H; by left).
  assert (c * length l <= sum_list_with f l)
    by (apply IH; intros; apply H; by right).
  lia.
Qed.

(** X17: the areas of the records add up to the number of cells that
    carry a label; hence, for a minimum size of at least 0, there are at
    most (labelled cells / minimum size) records. *)
Theorem detect_eddies_areas_add_up fs path thr ms ds sla :
  fs !! path = Some ds -> ds !! "sla" = Some sla ->
  exists labels props,
    detect_eddies fs path thr ms = Ok (labels, props)
    /\ total_area props = labelled_cells (nd_data labels)
    /\ ((0 ≤ ms)%Z ->
        (Z.of_nat (size props) * ms ≤ Z.of_nat (labelled_cells (nd_data labels)))%Z).
Proof.
  intros Hfs Hds.
  destruct (detect_eddies_run fs path thr ms ds sla Hfs Hds)
    as (labeled & n & Hlab & ->).
  pose proof (label_spec _ _ _ Hlab) as (_ & _ & _ & Hbound & _).
  eexists _, _. split; [done|]. cbn [nd_data].
  match goal with |- ?P /\ _ => assert (Htotal : P) end.
  { rewrite foldl_eddy_step_totals;
      [|apply NoDup_seq|intros; apply lookup_empty].
    unfold total_area at 1. rewrite map_to_list_empty. simpl.
    rewrite <- (cell_count_partition _ n).
    - apply sum_list_with_ext. intros i Hi%elem_of_seq.
      destruct (decide (survives (mask_of sla thr) labeled n ms i)) as [Hs|Hs].
      + pose proof (proj2 (valid_of_lookup _ _ _ _ _) Hs) as [Hv _].
        rewrite decide_True by done.
        destruct (survivor_count _ _ _ _ _ _ Hlab Hs) as (Hsum & Hout & _).
        etrans; [exact (props_area sla (mask_of sla thr) labeled n ms i Hs)|].
        by rewrite Hout, Hsum.
      + rewrite decide_False.
        2: { intros Hv. apply Hs, valid_of_lookup. split; [done|lia]. }
        symmetry. apply Nat.le_0_r, Nat.nlt_ge. intros Hpos.
        apply cell_count_pos in Hpos.
        apply list_elem_of_lookup in Hpos as [k Hk].
        rewrite filtered_lookup in Hk.
        apply fmap_Some in Hk as (l & _ & Hl).
        case_decide; [by subst|lia].
    - intros k l Hk. rewrite filtered_lookup in Hk.
      apply fmap_Some in Hk as (l' & Hl' & ->).
      specialize (Hbound k l' Hl'). case_decide; lia. }
  split; [done|]. intros Hms. rewrite <- Htotal. unfold total_area.
  rewrite <- length_map_to_list.
  pose proof (sum_list_with_ge (fun kp : nat * EddyProps => area kp.2) (Z.to_nat ms)
                (map_to_list (foldl (eddy_step sla labeled
                    (sizes_of (mask_of sla thr) labeled n)
                    (valid_of (sizes_of (mask_of sla thr) labeled n) ms)) ∅ (seq 1 n))))
    as Hge.
  assert (Hall : forall kp : nat * EddyProps,
            kp ∈ map_to_list (foldl (eddy_step sla labeled
                    (sizes_of (mask_of sla thr) labeled n)
                    (valid_of (sizes_of (mask_of sla thr) labeled n) ms)) ∅ (seq 1 n)) ->
            Z.to_nat ms <= area kp.2).
  { intros [i p] Hip%elem_of_map_to_list. rewrite props_lookup in Hip.
    case_decide as Hs; [|done]. simplify_eq.
    assert (Hg : Z.to_nat ms
                 <= area (props_of sla labeled (sizes_of (mask_of sla thr) labeled n) i));
      [|exact Hg].
    rewrite (props_area _ _ _ _ ms) by done. destruct Hs as [_ Hs]. lia. }
  specialize (Hge Hall). nia.
Qed.

Lemma detect_eddies_areas_add_up_witness :
  exists labels props,
    detect_eddies (one_file "sla" small_field) "f.nc" (Num 0%Qc) 1 = Ok (labels, props)
    /\ total_area props = labelled_cells (nd_data labels)
    /\ ((0 ≤ 1)%Z ->
        (Z.of_nat (size props) * 1 ≤ Z.of_nat (labelled_cells (nd_data labels)))%Z).
Proof.
  apply (detect_eddies_areas_add_up
           (one_file "sla" small_field) "f.nc" (Num 0%Qc) 1
           {[ "sla" := small_field ]} small_field); reflexivity.
Defined.
